(** * The flat app-host adapter of go-astral-js (apphost.go)

    A shallow embedding of [AppHostFlatAdapter]: its two registries, the
    helpers that guard them, and the flat operations built on top.  The
    adapter's own state is threaded explicitly; everything it calls but does
    not define (the astral stack, the streams, the uuid generator, the order
    in which [range] walks a map) is an [Environment]. *)

From stdpp Require Import base option list gmap strings pretty.
From Stdlib Require Import Strings.Byte.

Local Open Scope string_scope.
Local Open Scope list_scope.

(** ** Values that cross the boundary *)

(** A [*astral.Listener] and an [io.ReadWriteCloser] are references to objects
    owned by the stack; only their identity is visible here. *)
Definition Listener := positive.
Definition Conn := positive.

(** Go passes every failure along as an [error].  The constructor records
    where the value was made: by [errors.New]/[fmt.Errorf] in this file, by
    [id.ParsePublicKeyHex], or by the stack and its streams. *)
Inductive error : Type :=
| NotFound (msg : string)
| MalformedInput (e : string)
| UnderlyingFailure (e : string).

Definition is_NotFound (e : option error) : bool :=
  match e with Some (NotFound _) => true | _ => false end.

(** [sync.RWMutex]: one writer or any number of readers. *)
Record RWMutex := { writer : bool; readers : nat }.

Definition RWMutex_zero : RWMutex := {| writer := false; readers := 0 |}.

Definition RWMutex_Lock (m : RWMutex) : option RWMutex :=
  match writer m, readers m with
  | false, 0 => Some {| writer := true; readers := 0 |}
  | _, _ => None
  end.

Definition RWMutex_Unlock (m : RWMutex) : option RWMutex :=
  if writer m then Some {| writer := false; readers := readers m |} else None.

Definition RWMutex_RLock (m : RWMutex) : option RWMutex :=
  if writer m then None else Some {| writer := false; readers := S (readers m) |}.

Definition RWMutex_RUnlock (m : RWMutex) : option RWMutex :=
  match readers m with
  | S n => Some {| writer := writer m; readers := n |}
  | 0 => None
  end.

(** ** The adapter

    A Go map is a reference that may be nil: [None] is the nil map, [Some m]
    an allocated one. *)
Record AppHostFlatAdapter := {
  closed : bool;
  listeners : option (gmap string Listener);
  listenersMutex : RWMutex;
  connections : option (gmap string Conn);
  connectionsMutex : RWMutex
}.

Definition NewAppHostFlatAdapter : AppHostFlatAdapter :=
  {| closed := false;
     listeners := Some ∅;
     listenersMutex := RWMutex_zero;
     connections := Some ∅;
     connectionsMutex := RWMutex_zero |}.

Definition with_closed (b : bool) (a : AppHostFlatAdapter) :=
  {| closed := b; listeners := listeners a; listenersMutex := listenersMutex a;
     connections := connections a; connectionsMutex := connectionsMutex a |}.
Definition with_listeners (m : option (gmap string Listener)) (a : AppHostFlatAdapter) :=
  {| closed := closed a; listeners := m; listenersMutex := listenersMutex a;
     connections := connections a; connectionsMutex := connectionsMutex a |}.
Definition with_listenersMutex (x : RWMutex) (a : AppHostFlatAdapter) :=
  {| closed := closed a; listeners := listeners a; listenersMutex := x;
     connections := connections a; connectionsMutex := connectionsMutex a |}.
Definition with_connections (m : option (gmap string Conn)) (a : AppHostFlatAdapter) :=
  {| closed := closed a; listeners := listeners a; listenersMutex := listenersMutex a;
     connections := m; connectionsMutex := connectionsMutex a |}.
Definition with_connectionsMutex (x : RWMutex) (a : AppHostFlatAdapter) :=
  {| closed := closed a; listeners := listeners a; listenersMutex := listenersMutex a;
     connections := connections a; connectionsMutex := x |}.

(** Go's map primitives on a possibly nil map: indexing and [delete] accept
    nil, assignment does not. *)
Definition map_index {V} (m : option (gmap string V)) (k : string) : option V :=
  match m with Some m => m !! k | None => None end.

Definition map_assign {V} (m : option (gmap string V)) (k : string) (v : V)
  : option (gmap string V) :=
  match m with Some m => Some (<[k := v]> m) | None => None end.

Definition map_delete {V} (m : option (gmap string V)) (k : string)
  : option (gmap string V) :=
  match m with Some m => Some (delete k m) | None => None end.

(** The size of the buffer [ConnRead] hands to the stream. *)
Definition buf_len : nat := 4096.

(** ** What the adapter relies on

    [World] is the state of the stack and of every stream.  A call returns
    its Go results and the next world; [(v, err)] results whose value is read
    only when [err] is nil are sums.  [Conn_Read c n] is [Read] on a buffer of
    length [n]: the bytes it stored and its error.  [uuid_tape] is the
    sequence of values [uuid.New().String()] hands out, one per call;
    [uuid_unique] is the generator's contract.  [range_order] is the order in
    which a [for range] loop meets the entries of a map. *)
Class Environment := {
  World : Type;
  Identity : Type;
  Identity_zero : Identity;
  Identity_String : Identity -> string;
  ParsePublicKeyHex : string -> Identity + string;
  astral_Register : string -> World -> (Listener + string) * World;
  Listener_Accept : Listener -> World -> (Conn + string) * World;
  Listener_Close : Listener -> World -> option string * World;
  astral_Query : Identity -> string -> World -> (Conn + string) * World;
  astral_QueryName : string -> string -> World -> (Conn + string) * World;
  astral_Resolve : string -> World -> (Identity + string) * World;
  astral_GetNodeInfo : Identity -> World -> (Identity * string + string) * World;
  Conn_Read : Conn -> nat -> World -> (list byte * option string) * World;
  Conn_Write : Conn -> list byte -> World -> (nat * option string) * World;
  Conn_Close : Conn -> World -> option string * World;
  uuid_tape : nat -> string;
  uuid_unique : Inj (=) (=) uuid_tape;
  range_order : World -> forall V : Type, gmap string V -> list (string * V);
  range_order_perm : forall w V (m : gmap string V), range_order w V m ≡ₚ map_to_list m
}.

Record NodeInfo := { NodeInfo_Identity : string; NodeInfo_Name : string }.

Section Adapter.
Context `{Env : Environment}.

(** The calls issued to the stack, in the order they were made. *)
Inductive Call : Type :=
| CRegister (service : string)
| CListenerAccept (l : Listener)
| CListenerClose (l : Listener)
| CQuery (nid : Identity) (query : string)
| CQueryName (name query : string)
| CResolve (name : string)
| CGetNodeInfo (nid : Identity)
| CConnRead (c : Conn)
| CConnWrite (c : Conn) (data : list byte)
| CConnClose (c : Conn).

(** The adapter object, the world around it, how many uuids were drawn, and
    the calls made so far. *)
Record State := {
  api : AppHostFlatAdapter;
  world : World;
  drawn : nat;
  calls : list Call
}.

Definition initial (w : World) (n : nat) : State :=
  {| api := NewAppHostFlatAdapter; world := w; drawn := n; calls := [] |}.

(** How a Go function can end: it returns, it panics, it waits for a lock
    that nobody will release, or (for the model of a loop) the fuel ran out. *)
Inductive Outcome (A : Type) : Type :=
| Ret (a : A) (st : State)
| Panic (msg : string)
| Blocked
| OutOfFuel.
Global Arguments Ret {A} a st.
Global Arguments Panic {A} msg.
Global Arguments Blocked {A}.
Global Arguments OutOfFuel {A}.

Definition M (A : Type) : Type := State -> Outcome A.

Definition ret {A} (a : A) : M A := fun st => Ret a st.

Definition bind {A B} (c : M A) (k : A -> M B) : M B :=
  fun st =>
    match c st with
    | Ret a st' => k a st'
    | Panic msg => Panic msg
    | Blocked => Blocked
    | OutOfFuel => OutOfFuel
    end.

Definition panic {A} (msg : string) : M A := fun _ => Panic msg.

(** What came back, when the function returned. *)
Definition returned {A} (o : Outcome A) : option A :=
  match o with Ret a _ => Some a | _ => None end.

(** Whether the function returned at all. *)
Definition returns {A} (o : Outcome A) : bool :=
  match o with Ret _ _ => true | _ => false end.

End Adapter.

Notation "x <- c ;; k" := (bind c (fun x => k))
  (at level 100, c at next level, right associativity).
Notation "c ;; k" := (bind c (fun _ => k))
  (at level 100, right associativity).

Section Operations.
Context `{Env : Environment}.

(** ** Primitive steps *)

Definition read_api : M AppHostFlatAdapter := fun st => Ret (api st) st.

Definition update_api (f : AppHostFlatAdapter -> AppHostFlatAdapter) : M unit :=
  fun st =>
    Ret tt {| api := f (api st); world := world st; drawn := drawn st; calls := calls st |}.

(** Taking a lock that is held never returns; releasing one that is not held
    is a fatal error of the runtime. *)
Definition acquire (op : RWMutex -> option RWMutex)
    (get : AppHostFlatAdapter -> RWMutex)
    (set : RWMutex -> AppHostFlatAdapter -> AppHostFlatAdapter) : M unit :=
  fun st =>
    match op (get (api st)) with
    | Some m => update_api (set m) st
    | None => Blocked
    end.

Definition release (op : RWMutex -> option RWMutex)
    (get : AppHostFlatAdapter -> RWMutex)
    (set : RWMutex -> AppHostFlatAdapter -> AppHostFlatAdapter) : M unit :=
  fun st =>
    match op (get (api st)) with
    | Some m => update_api (set m) st
    | None => Panic "sync: unlock of unlocked RWMutex"
    end.

Definition listenersMutex_Lock := acquire RWMutex_Lock listenersMutex with_listenersMutex.
Definition listenersMutex_Unlock := release RWMutex_Unlock listenersMutex with_listenersMutex.
Definition listenersMutex_RLock := acquire RWMutex_RLock listenersMutex with_listenersMutex.
Definition listenersMutex_RUnlock := release RWMutex_RUnlock listenersMutex with_listenersMutex.
Definition connectionsMutex_Lock := acquire RWMutex_Lock connectionsMutex with_connectionsMutex.
Definition connectionsMutex_Unlock := release RWMutex_Unlock connectionsMutex with_connectionsMutex.
Definition connectionsMutex_RLock := acquire RWMutex_RLock connectionsMutex with_connectionsMutex.
Definition connectionsMutex_RUnlock := release RWMutex_RUnlock connectionsMutex with_connectionsMutex.

(** [defer d] followed by the rest of the function body. *)
Definition defer {A} (d : M unit) (body : M A) : M A :=
  r <- body ;; d ;; ret r.

(** A call into the stack: it is recorded and the world moves on. *)
Definition call {A} (c : Call) (f : World -> A * World) : M A :=
  fun st =>
    let (r, w) := f (world st) in
    Ret r {| api := api st; world := w; drawn := drawn st; calls := calls st ++ [c] |}.

(** [uuid.New().String()] *)
Definition uuid_New : M string :=
  fun st =>
    Ret (uuid_tape (drawn st))
        {| api := api st; world := world st; drawn := S (drawn st); calls := calls st |}.

(** The entries a [for range] loop over [m] will meet, in order; none for a
    nil map. *)
Definition range_over {V} (m : option (gmap string V)) : M (list (string * V)) :=
  fun st =>
    Ret (match m with Some m => range_order (world st) V m | None => [] end) st.

Fixpoint for_each {A} (l : list A) (body : A -> M unit) : M unit :=
  match l with
  | [] => ret tt
  | x :: l' => body x ;; for_each l' body
  end.

(** ** The registries *)

Definition CloseAppHostFlatAdapter : M unit :=
  listenersMutex_Lock ;;
  connectionsMutex_Lock ;;
  defer listenersMutex_Unlock (
  defer connectionsMutex_Unlock (
    a <- read_api ;;
    ls <- range_over (listeners a) ;;
    for_each ls (fun kv =>
      _err <- call (CListenerClose kv.2) (Listener_Close kv.2) ;; ret tt) ;;
    cs <- range_over (connections a) ;;
    for_each cs (fun kv =>
      _err <- call (CConnClose kv.2) (Conn_Close kv.2) ;; ret tt) ;;
    update_api (with_connections None) ;;
    update_api (with_listeners None) ;;
    update_api (with_closed true))).

(** [(l, ok)]: [None] is [(nil, false)]. *)
Definition getListener (service : string) : M (option Listener) :=
  listenersMutex_RLock ;;
  defer listenersMutex_RUnlock (
    a <- read_api ;;
    if closed a then ret None
    else ret (map_index (listeners a) service)).

(** [listener] is [None] for a nil pointer. *)
Definition setListener (service : string) (listener : option Listener) : M unit :=
  listenersMutex_Lock ;;
  defer listenersMutex_Unlock (
    a <- read_api ;;
    if closed a then ret tt
    else
      match listener with
      | Some l =>
          match map_assign (listeners a) service l with
          | Some m => update_api (with_listeners (Some m))
          | None => panic "assignment to entry in nil map"
          end
      | None => update_api (with_listeners (map_delete (listeners a) service))
      end).

Definition getConnection (connectionId : string) : M (option Conn) :=
  connectionsMutex_RLock ;;
  defer connectionsMutex_RUnlock (
    a <- read_api ;;
    if closed a then ret None
    else ret (map_index (connections a) connectionId)).

Definition setConnection (connectionId : string) (connection : option Conn) : M unit :=
  connectionsMutex_Lock ;;
  defer connectionsMutex_Unlock (
    a <- read_api ;;
    if closed a then ret tt
    else
      match connection with
      | Some c =>
          match map_assign (connections a) connectionId c with
          | Some m => update_api (with_connections (Some m))
          | None => panic "assignment to entry in nil map"
          end
      | None => update_api (with_connections (map_delete (connections a) connectionId))
      end).

(** ** The flat operations *)

Definition ServiceRegister (service : string) : M (option error) :=
  r <- call (CRegister service) (astral_Register service) ;;
  match r with
  | inr e => ret (Some (UnderlyingFailure e))
  | inl listener => setListener service (Some listener) ;; ret None
  end.

Definition ServiceClose (service : string) : M (option error) :=
  r <- getListener service ;;
  match r with
  | None => ret (Some (NotFound ("[ServiceClose] not listening on port: " +:+ service)))
  | Some listener =>
      err <- call (CListenerClose listener) (Listener_Close listener) ;;
      match err with
      | Some _ => setListener service None
      | None => ret tt
      end ;;
      ret (UnderlyingFailure <$> err)
  end.

Definition ConnAccept (service : string) : M (string * option error) :=
  r <- getListener service ;;
  match r with
  | None => ret ("", Some (NotFound ("[ConnAccept] not listening on port: " +:+ service)))
  | Some listener =>
      r <- call (CListenerAccept listener) (Listener_Accept listener) ;;
      match r with
      | inr e => ret ("", Some (UnderlyingFailure e))
      | inl conn =>
          id <- uuid_New ;;
          setConnection id (Some conn) ;;
          ret (id, None)
      end
  end.

Definition ConnClose (id : string) : M (option error) :=
  r <- getConnection id ;;
  match r with
  | None => ret (Some (NotFound ("[ConnClose] not found connection with id: " +:+ id)))
  | Some conn =>
      err <- call (CConnClose conn) (Conn_Close conn) ;;
      match err with
      | None => setConnection id None
      | Some _ => ret tt
      end ;;
      ret (UnderlyingFailure <$> err)
  end.

Definition ConnWrite (id : string) (data : string) : M (option error) :=
  r <- getConnection id ;;
  match r with
  | None => ret (Some (NotFound ("[ConnWrite] not found connection with id: " +:+ id)))
  | Some conn =>
      let bytes := String.list_byte_of_string data in
      r <- call (CConnWrite conn bytes) (Conn_Write conn bytes) ;;
      ret (UnderlyingFailure <$> r.2)
  end.

(** The [for] loop of [ConnRead].  [arr] is the accumulator; the deferred
    function turns it into [data] on both ways out.  The stream stored [p] in
    [buf], so [buf[0:n]] is [p], and slicing panics when [n] exceeds the
    buffer. *)
Fixpoint ConnRead_loop (fuel : nat) (conn : Conn) (arr : list byte)
  : M (string * option error) :=
  match fuel with
  | 0 => fun _ => OutOfFuel
  | S fuel' =>
      r <- call (CConnRead conn) (Conn_Read conn buf_len) ;;
      let (p, err) := r in
      match err with
      | Some e => ret (String.string_of_list_byte arr, Some (UnderlyingFailure e))
      | None =>
          if (buf_len <? length p)%nat then panic "slice bounds out of range"
          else
            let arr' := arr ++ p in
            if (length p <? buf_len)%nat then ret (String.string_of_list_byte arr', None)
            else ConnRead_loop fuel' conn arr'
      end
  end.

Definition ConnRead (fuel : nat) (id : string) : M (string * option error) :=
  r <- getConnection id ;;
  match r with
  | None => ret ("", Some (NotFound ("[ConnRead] not found connection with id: " +:+ id)))
  | Some conn => ConnRead_loop fuel conn []
  end.

(** [nid] starts as [id.Identity{}] and is parsed only from a non-empty
    [identity]. *)
Definition Query (identity : string) (query : string) : M (string * option error) :=
  let parsed :=
    if (0 <? String.length identity)%nat then ParsePublicKeyHex identity
    else inl Identity_zero in
  match parsed with
  | inr e => ret ("", Some (MalformedInput e))
  | inl nid =>
      r <- call (CQuery nid query) (astral_Query nid query) ;;
      match r with
      | inr e => ret ("", Some (UnderlyingFailure e))
      | inl conn =>
          connId <- uuid_New ;;
          setConnection connId (Some conn) ;;
          ret (connId, None)
      end
  end.

Definition QueryName (name : string) (query : string) : M (string * option error) :=
  r <- call (CQueryName name query) (astral_QueryName name query) ;;
  match r with
  | inr e => ret ("", Some (UnderlyingFailure e))
  | inl conn =>
      connId <- uuid_New ;;
      setConnection connId (Some conn) ;;
      ret (connId, None)
  end.

Definition Resolve (name : string) : M (string * option error) :=
  r <- call (CResolve name) (astral_Resolve name) ;;
  match r with
  | inr e => ret ("", Some (UnderlyingFailure e))
  | inl identity => ret (Identity_String identity, None)
  end.

(** The method [NodeInfo]; the name is taken by the struct it returns. *)
Definition api_NodeInfo (identity : string) : M (NodeInfo * option error) :=
  let zero := {| NodeInfo_Identity := ""; NodeInfo_Name := "" |} in
  match ParsePublicKeyHex identity with
  | inr e => ret (zero, Some (MalformedInput e))
  | inl nid =>
      r <- call (CGetNodeInfo nid) (astral_GetNodeInfo nid) ;;
      match r with
      | inr e => ret (zero, Some (UnderlyingFailure e))
      | inl i =>
          ret ({| NodeInfo_Identity := Identity_String i.1; NodeInfo_Name := i.2 |}, None)
      end
  end.

End Operations.

(** ** Runs of the adapter *)

Inductive Op : Type :=
| OServiceRegister (service : string)
| OServiceClose (service : string)
| OConnAccept (service : string)
| OConnClose (id : string)
| OConnWrite (id data : string)
| OConnRead (id : string)
| OQuery (identity query : string)
| OQueryName (name query : string)
| OResolve (name : string)
| ONodeInfo (identity : string)
| OShutdown.

(** What an operation hands back to the host. *)
Inductive Res : Type :=
| RUnit
| RErr (err : option error)
| RStr (s : string) (err : option error)
| RInfo (info : NodeInfo) (err : option error).

(** The connection identifier a call issued, if it is an accept or a query
    that returned without error. *)
Definition issued (op : Op) (r : Res) : option string :=
  match op, r with
  | OConnAccept _, RStr id None => Some id
  | OQuery _ _, RStr id None => Some id
  | OQueryName _ _, RStr id None => Some id
  | _, _ => None
  end.

Section Runs.
Context `{Env : Environment}.

Definition exec (fuel : nat) (op : Op) : M Res :=
  match op with
  | OServiceRegister service => e <- ServiceRegister service ;; ret (RErr e)
  | OServiceClose service => e <- ServiceClose service ;; ret (RErr e)
  | OConnAccept service => r <- ConnAccept service ;; ret (RStr r.1 r.2)
  | OConnClose id => e <- ConnClose id ;; ret (RErr e)
  | OConnWrite id data => e <- ConnWrite id data ;; ret (RErr e)
  | OConnRead id => r <- ConnRead fuel id ;; ret (RStr r.1 r.2)
  | OQuery identity query => r <- Query identity query ;; ret (RStr r.1 r.2)
  | OQueryName name query => r <- QueryName name query ;; ret (RStr r.1 r.2)
  | OResolve name => r <- Resolve name ;; ret (RStr r.1 r.2)
  | ONodeInfo identity => r <- api_NodeInfo identity ;; ret (RInfo r.1 r.2)
  | OShutdown => CloseAppHostFlatAdapter ;; ret RUnit
  end.

Fixpoint run (fuel : nat) (ops : list Op) : M (list Res) :=
  match ops with
  | [] => ret []
  | op :: ops' => r <- exec fuel op ;; rs <- run fuel ops' ;; ret (r :: rs)
  end.

(** The identifiers issued along a run, oldest first. *)
Fixpoint issued_ids (ops : list Op) (rs : list Res) : list string :=
  match ops, rs with
  | op :: ops', r :: rs' =>
      match issued op r with
      | Some id => id :: issued_ids ops' rs'
      | None => issued_ids ops' rs'
      end
  | _, _ => []
  end.

(** The states the host can bring the adapter to. *)
Inductive Reachable : State -> Prop :=
| Reachable_initial w n : Reachable (initial w n)
| Reachable_exec st fuel op r st' :
    Reachable st -> exec fuel op st = Ret r st' -> Reachable st'.

(** The live entry under a connection id or a service name. *)
Definition live_connection (a : AppHostFlatAdapter) (id : string) : option Conn :=
  if closed a then None else map_index (connections a) id.

Definition live_listener (a : AppHostFlatAdapter) (service : string) : option Listener :=
  if closed a then None else map_index (listeners a) service.

(** Between two operations no lock is held, and the maps are allocated until
    shutdown. *)
Record Inv (a : AppHostFlatAdapter) : Prop := {
  Inv_listenersMutex : listenersMutex a = RWMutex_zero;
  Inv_connectionsMutex : connectionsMutex a = RWMutex_zero;
  Inv_listeners : closed a = false -> is_Some (listeners a);
  Inv_connections : closed a = false -> is_Some (connections a);
  Inv_shut_down : closed a = true -> listeners a = None /\ connections a = None
}.

Definition set_api (a : AppHostFlatAdapter) (st : State) : State :=
  {| api := a; world := world st; drawn := drawn st; calls := calls st |}.

Definition called (c : Call) (w : World) (st : State) : State :=
  {| api := api st; world := w; drawn := drawn st; calls := calls st ++ [c] |}.

(** What [setListener] does once it holds the lock. *)
Definition setListener_result (service : string) (listener : option Listener)
    (st : State) : Outcome unit :=
  if closed (api st) then Ret tt st
  else
    match listener with
    | Some l =>
        match listeners (api st) with
        | Some m => Ret tt (set_api (with_listeners (Some (<[service := l]> m)) (api st)) st)
        | None => Panic "assignment to entry in nil map"
        end
    | None => Ret tt (set_api (with_listeners (map_delete (listeners (api st)) service) (api st)) st)
    end.

Definition setConnection_result (id : string) (connection : option Conn)
    (st : State) : Outcome unit :=
  if closed (api st) then Ret tt st
  else
    match connection with
    | Some c =>
        match connections (api st) with
        | Some m => Ret tt (set_api (with_connections (Some (<[id := c]> m)) (api st)) st)
        | None => Panic "assignment to entry in nil map"
        end
    | None => Ret tt (set_api (with_connections (map_delete (connections (api st)) id) (api st)) st)
    end.

(** The outcome of the first [k] reads on [conn], oldest first, and the world
    they leave. *)
Fixpoint reads (k : nat) (conn : Conn) (w : World)
  : list (list byte * option string) * World :=
  match k with
  | 0 => ([], w)
  | S k' =>
      let (r, w1) := Conn_Read conn buf_len w in
      let (rs, w2) := reads k' conn w1 in
      (r :: rs, w2)
  end.

(** A read that reports no error and fills the buffer to the last byte. *)
Definition fills_buffer (r : list byte * option string) : Prop :=
  r.2 = None /\ length r.1 = buf_len.

Definition after_reads (k : nat) (conn : Conn) (st : State) : State :=
  {| api := api st; world := (reads k conn (world st)).2; drawn := drawn st;
     calls := calls st ++ replicate k (CConnRead conn) |}.

(** The world after [Close] was called on each of [ls], in order. *)
Fixpoint closed_listeners (ls : list Listener) (w : World) : World :=
  match ls with
  | [] => w
  | l :: ls' => closed_listeners ls' (Listener_Close l w).2
  end.

Fixpoint closed_conns (cs : list Conn) (w : World) : World :=
  match cs with
  | [] => w
  | c :: cs' => closed_conns cs' (Conn_Close c w).2
  end.

(** The adapter once shut down. *)
Definition shut_down : AppHostFlatAdapter :=
  {| closed := true; listeners := None; listenersMutex := RWMutex_zero;
     connections := None; connectionsMutex := RWMutex_zero |}.

(** The listeners and the connections a shutdown in [st] closes, in the
    order the two loops meet them. *)
Definition swept_listeners (st : State) : list Listener :=
  match listeners (api st) with
  | Some m => (range_order (world st) Listener m).*2
  | None => []
  end.

Definition swept_conns (st : State) : list Conn :=
  match connections (api st) with
  | Some m => (range_order (closed_listeners (swept_listeners st) (world st)) Conn m).*2
  | None => []
  end.

Definition after_shutdown (st : State) : State :=
  {| api := shut_down;
     world := closed_conns (swept_conns st) (closed_listeners (swept_listeners st) (world st));
     drawn := drawn st;
     calls := calls st ++ (CListenerClose <$> swept_listeners st)
                       ++ (CConnClose <$> swept_conns st) |}.

(** The adapter after [setConnection id conn] and [setListener service l]
    with non-nil arguments returned. *)
Definition store_connection (id : string) (c : Conn) (a : AppHostFlatAdapter)
  : AppHostFlatAdapter :=
  if closed a then a else with_connections (map_assign (connections a) id c) a.

Definition store_listener (service : string) (l : Listener) (a : AppHostFlatAdapter)
  : AppHostFlatAdapter :=
  if closed a then a else with_listeners (map_assign (listeners a) service l) a.

(** The state after the stack answered [cl] with the stream [c] and the
    stream was stored under the next uuid. *)
Definition issue (c : Conn) (cl : Call) (w : World) (st : State) : State :=
  {| api := store_connection (uuid_tape (drawn st)) c (api st);
     world := w; drawn := S (drawn st); calls := calls st ++ [cl] |}.

(** The resources a registry holds, one per entry. *)
Definition registry_values {V} (m : option (gmap string V)) : list V :=
  match m with
  | Some m => (map_to_list m).*2
  | None => []
  end.

(** What a run handed back, and the state it ends in; nothing and the
    starting state if it does not return. *)
Definition results (fuel : nat) (ops : list Op) (st : State) : list Res :=
  match run fuel ops st with
  | Ret rs _ => rs
  | _ => []
  end.

Definition state_after (fuel : nat) (ops : list Op) (st : State) : State :=
  match run fuel ops st with
  | Ret _ st' => st'
  | _ => st
  end.

(** What one operation does to the adapter and to the uuid count. *)
Definition step_ok (op : Op) (st : State) (r : Res) (st' : State) : Prop :=
  Inv (api st') /\
  (closed (api st) = true -> api st' = api st) /\
  match issued op r with
  | Some id => id = uuid_tape (drawn st) /\ drawn st' = S (drawn st)
  | None => drawn st' = drawn st
  end.

End Runs.

(** ** A replayed environment

    A stand-in for the stack in which the world is the list of replies still
    to come: every call takes the next one.  It fixes nothing about the
    adapter; it serves to run the operations on concrete inputs. *)
Module Scripted.

Inductive Reply : Type :=
| Fails (e : string)
| Succeeds
| GivesListener (l : Listener)
| GivesConn (c : Conn)
| GivesBytes (p : list byte) (err : option string)
| GivesIdentity (i : string)
| GivesInfo (i name : string).

Definition next (w : list Reply) : Reply * list Reply :=
  match w with
  | [] => (Fails "no reply", [])
  | r :: w' => (r, w')
  end.

Definition listener_reply (w : list Reply) : (Listener + string) * list Reply :=
  match next w with
  | (GivesListener l, w') => (inl l, w')
  | (Fails e, w') => (inr e, w')
  | (_, w') => (inr "unexpected reply", w')
  end.

Definition conn_reply (w : list Reply) : (Conn + string) * list Reply :=
  match next w with
  | (GivesConn c, w') => (inl c, w')
  | (Fails e, w') => (inr e, w')
  | (_, w') => (inr "unexpected reply", w')
  end.

Definition error_reply (w : list Reply) : option string * list Reply :=
  match next w with
  | (Succeeds, w') => (None, w')
  | (Fails e, w') => (Some e, w')
  | (_, w') => (Some "unexpected reply", w')
  end.

Definition read_reply (n : nat) (w : list Reply) : (list byte * option string) * list Reply :=
  match next w with
  | (GivesBytes p err, w') => ((take n p, err), w')
  | (Fails e, w') => (([], Some e), w')
  | (_, w') => (([], Some "unexpected reply"), w')
  end.

Definition write_reply (data : list byte) (w : list Reply) : (nat * option string) * list Reply :=
  match next w with
  | (Succeeds, w') => ((length data, None), w')
  | (Fails e, w') => ((0, Some e), w')
  | (_, w') => ((0, Some "unexpected reply"), w')
  end.

Definition identity_reply (w : list Reply) : (string + string) * list Reply :=
  match next w with
  | (GivesIdentity i, w') => (inl i, w')
  | (Fails e, w') => (inr e, w')
  | (_, w') => (inr "unexpected reply", w')
  end.

Definition info_reply (w : list Reply) : (string * string + string) * list Reply :=
  match next w with
  | (GivesInfo i name, w') => (inl (i, name), w')
  | (Fails e, w') => (inr e, w')
  | (_, w') => (inr "unexpected reply", w')
  end.

(** Identities are their own hex form; a key is 66 characters long. *)
Definition parse (s : string) : string + string :=
  if (String.length s =? 66)%nat then inl s else inr "invalid public key".

Definition tape (n : nat) : string := "uuid-" +:+ pretty n.

Definition tape_inj : Inj (=) (=) tape :=
  fun x y H => pretty_nat_inj x y (String.app_inj "uuid-" _ _ H).

#[export] Instance env : Environment := {|
  World := list Reply;
  Identity := string;
  Identity_zero := "";
  Identity_String := fun i => i;
  ParsePublicKeyHex := parse;
  astral_Register := fun _ => listener_reply;
  Listener_Accept := fun _ => conn_reply;
  Listener_Close := fun _ => error_reply;
  astral_Query := fun _ _ => conn_reply;
  astral_QueryName := fun _ _ => conn_reply;
  astral_Resolve := fun _ => identity_reply;
  astral_GetNodeInfo := fun _ => info_reply;
  Conn_Read := fun _ => read_reply;
  Conn_Write := fun _ => write_reply;
  Conn_Close := fun _ => error_reply;
  uuid_tape := tape;
  uuid_unique := tape_inj;
  range_order := fun _ V m => map_to_list m;
  range_order_perm := fun _ V m => reflexivity (map_to_list m)
|}.

(** A full buffer of one repeated byte. *)
Definition chunk (b : byte) : list byte := replicate buf_len b.

(** Service "echo" is registered on listener 3; its [Close] will fail. *)
Definition echo_close_fails : State :=
  state_after 1 [OServiceRegister "echo"] (initial [GivesListener 3%positive; Fails "boom"] 0).

(** Service "echo" is registered on listener 3; its [Close] will succeed. *)
Definition echo_close_succeeds : State :=
  state_after 1 [OServiceRegister "echo"] (initial [GivesListener 3%positive; Succeeds] 0).

(** A query opened stream 7 under "uuid-0"; the stream's [Close] will fail
    and a later [Write] will succeed. *)
Definition conn_close_fails : State :=
  state_after 1 [OQuery "" "ping"] (initial [GivesConn 7%positive; Fails "boom"; Succeeds] 0).

(** A query opened stream 7 under "uuid-0"; the stream's [Close] will
    succeed. *)
Definition conn_close_succeeds : State :=
  state_after 1 [OQuery "" "ping"] (initial [GivesConn 7%positive; Succeeds] 0).

(** A query opened stream 7 under "uuid-0"; it will fill the buffer twice
    and then deliver two bytes. *)
Definition two_full_then_short : State :=
  state_after 1 [OQuery "" "ping"]
    (initial [GivesConn 7%positive; GivesBytes (chunk "a") None;
              GivesBytes (chunk "b") None; GivesBytes ["h"; "i"]%byte None] 0).

(** The same, but the third read fails. *)
Definition two_full_then_error : State :=
  state_after 1 [OQuery "" "ping"]
    (initial [GivesConn 7%positive; GivesBytes (chunk "a") None;
              GivesBytes (chunk "b") None; Fails "EOF"] 0).

(** Two streams are open, 7 under "uuid-0" and 8 under "uuid-1"; the first
    [Close] to come will fail. *)
Definition two_open : State :=
  state_after 1 [OQuery "" "ping"; OQueryName "peer" "ping"]
    (initial [GivesConn 7%positive; GivesConn 8%positive; Fails "boom"; Succeeds] 0).

(** The adapter was shut down while stream 7 was open; the stack would still
    answer a registration and a query. *)
Definition shut : State :=
  state_after 1 [OQuery "" "ping"; OShutdown]
    (initial [GivesConn 7%positive; Succeeds; GivesListener 3%positive;
              GivesConn 8%positive] 0).

(** A session: register, accept, query, close the first connection, query by
    name, and a query that fails. *)
Definition session : list Op :=
  [OServiceRegister "echo"; OConnAccept "echo"; OQuery "" "ping";
   OConnClose "uuid-0"; OQueryName "peer" "ping"; OQuery "" "ping"].

Definition session_start : State :=
  initial [GivesListener 3%positive; GivesConn 7%positive; GivesConn 8%positive;
           Succeeds; GivesConn 9%positive; Fails "unreachable"] 0.

(** A new adapter in front of a stack that answers nothing. *)
Definition fresh : State := initial [] 0.

End Scripted.

(** ** Reading the operations' effects *)

(** The operations whose body reaches [setListener], and those whose body
    reaches [setConnection]; shutdown assigns both maps itself. *)
Definition touches_listeners (op : Op) : bool :=
  match op with
  | OServiceRegister _ | OServiceClose _ | OShutdown => true
  | _ => false
  end.

Definition touches_connections (op : Op) : bool :=
  match op with
  | OConnAccept _ | OConnClose _ | OQuery _ _ | OQueryName _ _ | OShutdown => true
  | _ => false
  end.

Section Effects.
Context `{Env : Environment}.

(** The identity [Query] hands to the stack: [nid] after the [if] of its
    first lines, or the parse error it returns there. *)
Definition target_identity (identity : string) : Identity + string :=
  if (0 <? String.length identity)%nat then ParsePublicKeyHex identity
  else inl Identity_zero.

(** [io.Reader]'s contract on the count: a read stores no more bytes than the
    buffer holds. *)
Definition reads_within_buffer : Prop :=
  forall c w, length (Conn_Read c buf_len w).1.1 <= buf_len.

(** How a public operation ended, seen from the host: it came back, or it
    is still reading. *)
Definition ends_well (op : Op) (o : Outcome Res) : Prop :=
  match o with
  | Ret _ _ => True
  | OutOfFuel => exists id, op = OConnRead id
  | Panic _ | Blocked => False
  end.

(** Every live connection identifier is one of the uuids [n], ..., drawn so
    far. *)
Definition keys_were_drawn (n : nat) (st : State) : Prop :=
  forall id c,
    live_connection (api st) id = Some c ->
    exists i, n <= i < drawn st /\ id = uuid_tape i.

End Effects.

(** ** More replayed scenarios *)
Module Scenarios.
Import Scripted.

(** A new adapter; the stack will register a listener, refuse the next
    registration, and accept a stream. *)
Definition registering : State :=
  initial [GivesListener 3%positive; Fails "taken"; GivesConn 7%positive] 0.

(** "echo" is registered on listener 3; an accept will yield stream 7. *)
Definition listening : State :=
  state_after 1 [OServiceRegister "echo"]
    (initial [GivesListener 3%positive; GivesConn 7%positive; Fails "gone"] 0).

(** "echo" is registered on listener 3; its [Close] will succeed twice. *)
Definition closing_twice : State :=
  state_after 1 [OServiceRegister "echo"]
    (initial [GivesListener 3%positive; Succeeds; Succeeds] 0).

(** Stream 7 is open under "uuid-0"; the stack will answer a query with
    stream 8 and fail the one after. *)
Definition one_open : State :=
  state_after 1 [OQuery "" "ping"]
    (initial [GivesConn 7%positive; GivesConn 8%positive; Fails "unreachable"] 0).

(** Stream 7 is open under "uuid-0"; a write will succeed and the peer will
    send the same two bytes back. *)
Definition echoing : State :=
  state_after 1 [OQuery "" "ping"]
    (initial [GivesConn 7%positive; Succeeds; GivesBytes ["h"; "i"]%byte None] 0).

(** Stream 7 is open under "uuid-0"; its next read delivers two bytes. *)
Definition short_read : State :=
  state_after 1 [OQuery "" "ping"]
    (initial [GivesConn 7%positive; GivesBytes ["h"; "i"]%byte None] 0).

(** "echo" is registered on listener 3; two accepts will yield streams 7
    and 8. *)
Definition accepting_two : State :=
  state_after 1 [OServiceRegister "echo"]
    (initial [GivesListener 3%positive; GivesConn 7%positive; GivesConn 8%positive] 0).

(** The state the session of [Scripted] ends in. *)
Definition session_end : State :=
  state_after 1 session session_start.

(** A 66-character identity, which [Scripted.parse] accepts. *)
Definition key : string :=
  "02aaaaaaaaaaaaaaaaaaaaaaaaaaaaaaaaaaaaaaaaaaaaaaaaaaaaaaaaaaaaaaaa".

End Scenarios.

(** * Properties *)

(** ** Symbolic execution of the guarded registries *)

Section Facts.
Context `{Env : Environment}.

Lemma set_api_same st : set_api (api st) st = st.
Proof. now destruct st. Qed.

Ltac open_state st :=
  destruct st as [[cl ls lm cn cm] w n cs]; simpl in *; subst.

Lemma getListener_run service st :
  listenersMutex (api st) = RWMutex_zero ->
  getListener service st = Ret (live_listener (api st) service) st.
Proof.
  intros Hm. open_state st.
  unfold getListener, live_listener, defer, bind; simpl.
  destruct cl; reflexivity.
Qed.

Lemma getConnection_run id st :
  connectionsMutex (api st) = RWMutex_zero ->
  getConnection id st = Ret (live_connection (api st) id) st.
Proof.
  intros Hm. open_state st.
  unfold getConnection, live_connection, defer, bind; simpl.
  destruct cl; reflexivity.
Qed.

Lemma setListener_run service listener st :
  listenersMutex (api st) = RWMutex_zero ->
  setListener service listener st = setListener_result service listener st.
Proof.
  intros Hm. open_state st.
  unfold setListener, setListener_result, defer, bind; simpl.
  destruct cl; [reflexivity|].
  destruct listener as [l|]; [destruct ls as [m|]|]; reflexivity.
Qed.

Lemma setConnection_run id connection st :
  connectionsMutex (api st) = RWMutex_zero ->
  setConnection id connection st = setConnection_result id connection st.
Proof.
  intros Hm. open_state st.
  unfold setConnection, setConnection_result, defer, bind; simpl.
  destruct cl; [reflexivity|].
  destruct connection as [c|]; [destruct cn as [m|]|]; reflexivity.
Qed.

Lemma live_connection_Some a id c :
  live_connection a id = Some c ->
  closed a = false /\ map_index (connections a) id = Some c.
Proof. unfold live_connection. destruct (closed a); [discriminate | auto]. Qed.

Lemma live_listener_Some a service l :
  live_listener a service = Some l ->
  closed a = false /\ map_index (listeners a) service = Some l.
Proof. unfold live_listener. destruct (closed a); [discriminate | auto]. Qed.

Lemma call_run {A} c (f : World -> A * World) st :
  call c f st = Ret (f (world st)).1 (called c (f (world st)).2 st).
Proof. unfold call, called. now destruct (f (world st)). Qed.

(** Rewrites the guarded registry accesses and the stack calls met while an
    operation is unfolded. *)
Ltac run_step :=
  first
    [ rewrite getListener_run by (simpl; assumption)
    | rewrite getConnection_run by (simpl; assumption)
    | rewrite setListener_run by (simpl; assumption)
    | rewrite setConnection_run by (simpl; assumption)
    | rewrite call_run
    | match goal with H : ?x = _ |- context [?x] => rewrite H end
    | progress simpl ].

Ltac run_op := unfold bind, ret; simpl; repeat run_step.

(** *** ServiceClose *)

Lemma ServiceClose_missing service st :
  listenersMutex (api st) = RWMutex_zero ->
  live_listener (api st) service = None ->
  ServiceClose service st =
    Ret (Some (NotFound ("[ServiceClose] not listening on port: " +:+ service))) st.
Proof. intros Hm Hl. unfold ServiceClose. now run_op. Qed.

Lemma ServiceClose_close_ok service st l w :
  listenersMutex (api st) = RWMutex_zero ->
  live_listener (api st) service = Some l ->
  Listener_Close l (world st) = (None, w) ->
  ServiceClose service st = Ret None (called (CListenerClose l) w st).
Proof. intros Hm Hl Hc. unfold ServiceClose. now run_op. Qed.

Lemma ServiceClose_close_err service st l e w :
  listenersMutex (api st) = RWMutex_zero ->
  live_listener (api st) service = Some l ->
  Listener_Close l (world st) = (Some e, w) ->
  ServiceClose service st =
    Ret (Some (UnderlyingFailure e))
        (set_api (with_listeners (map_delete (listeners (api st)) service) (api st))
                 (called (CListenerClose l) w st)).
Proof.
  intros Hm Hl Hc. destruct (live_listener_Some _ _ _ Hl) as [Hcl _].
  unfold ServiceClose. run_op.
  unfold setListener_result. now run_op.
Qed.

(** *** ConnClose, ConnWrite, ConnRead *)

Lemma ConnClose_missing id st :
  connectionsMutex (api st) = RWMutex_zero ->
  live_connection (api st) id = None ->
  ConnClose id st =
    Ret (Some (NotFound ("[ConnClose] not found connection with id: " +:+ id))) st.
Proof. intros Hm Hl. unfold ConnClose. now run_op. Qed.

Lemma ConnClose_close_ok id st c w :
  connectionsMutex (api st) = RWMutex_zero ->
  live_connection (api st) id = Some c ->
  Conn_Close c (world st) = (None, w) ->
  ConnClose id st =
    Ret None
        (set_api (with_connections (map_delete (connections (api st)) id) (api st))
                 (called (CConnClose c) w st)).
Proof.
  intros Hm Hl Hc. destruct (live_connection_Some _ _ _ Hl) as [Hcl _].
  unfold ConnClose. run_op.
  unfold setConnection_result. now run_op.
Qed.

Lemma ConnClose_close_err id st c e w :
  connectionsMutex (api st) = RWMutex_zero ->
  live_connection (api st) id = Some c ->
  Conn_Close c (world st) = (Some e, w) ->
  ConnClose id st = Ret (Some (UnderlyingFailure e)) (called (CConnClose c) w st).
Proof. intros Hm Hl Hc. unfold ConnClose. now run_op. Qed.

Lemma ConnWrite_missing id data st :
  connectionsMutex (api st) = RWMutex_zero ->
  live_connection (api st) id = None ->
  ConnWrite id data st =
    Ret (Some (NotFound ("[ConnWrite] not found connection with id: " +:+ id))) st.
Proof. intros Hm Hl. unfold ConnWrite. now run_op. Qed.

Lemma ConnWrite_live id data st c :
  connectionsMutex (api st) = RWMutex_zero ->
  live_connection (api st) id = Some c ->
  ConnWrite id data st =
    let bytes := String.list_byte_of_string data in
    let r := Conn_Write c bytes (world st) in
    Ret (UnderlyingFailure <$> r.1.2) (called (CConnWrite c bytes) r.2 st).
Proof. intros Hm Hl. unfold ConnWrite. now run_op. Qed.

Lemma ConnRead_missing fuel id st :
  connectionsMutex (api st) = RWMutex_zero ->
  live_connection (api st) id = None ->
  ConnRead fuel id st =
    Ret ("", Some (NotFound ("[ConnRead] not found connection with id: " +:+ id))) st.
Proof. intros Hm Hl. unfold ConnRead. now run_op. Qed.

Lemma ConnRead_live fuel id st c :
  connectionsMutex (api st) = RWMutex_zero ->
  live_connection (api st) id = Some c ->
  ConnRead fuel id st = ConnRead_loop fuel c [] st.
Proof. intros Hm Hl. unfold ConnRead. now run_op. Qed.

(** *** The accumulation loop *)

Lemma ConnRead_loop_error fuel c arr st p e w :
  Conn_Read c buf_len (world st) = ((p, Some e), w) ->
  ConnRead_loop (S fuel) c arr st =
    Ret (String.string_of_list_byte arr, Some (UnderlyingFailure e))
        (called (CConnRead c) w st).
Proof. intros Hr. simpl. now run_op. Qed.

Lemma ConnRead_loop_short fuel c arr st p w :
  Conn_Read c buf_len (world st) = ((p, None), w) ->
  length p < buf_len ->
  ConnRead_loop (S fuel) c arr st =
    Ret (String.string_of_list_byte (arr ++ p), None) (called (CConnRead c) w st).
Proof.
  intros Hr Hp. simpl. run_op.
  destruct (Nat.ltb_spec buf_len (length p)); [lia|].
  destruct (Nat.ltb_spec (length p) buf_len); [reflexivity | lia].
Qed.

Lemma ConnRead_loop_full fuel c arr st p w :
  Conn_Read c buf_len (world st) = ((p, None), w) ->
  length p = buf_len ->
  ConnRead_loop (S fuel) c arr st =
    ConnRead_loop fuel c (arr ++ p) (called (CConnRead c) w st).
Proof.
  intros Hr Hp. simpl. run_op.
  destruct (Nat.ltb_spec buf_len (length p)); [lia|].
  destruct (Nat.ltb_spec (length p) buf_len); [lia | reflexivity].
Qed.

Lemma ConnRead_loop_overrun fuel c arr st p w :
  Conn_Read c buf_len (world st) = ((p, None), w) ->
  buf_len < length p ->
  ConnRead_loop (S fuel) c arr st = Panic "slice bounds out of range".
Proof.
  intros Hr Hp. simpl. run_op.
  destruct (Nat.ltb_spec buf_len (length p)); [reflexivity | lia].
Qed.

Lemma after_reads_0 c st : after_reads 0 c st = st.
Proof. destruct st. unfold after_reads. simpl. now rewrite app_nil_r. Qed.

Lemma reads_S k c w :
  reads (S k) c w =
    ((Conn_Read c buf_len w).1 :: (reads k c (Conn_Read c buf_len w).2).1,
     (reads k c (Conn_Read c buf_len w).2).2).
Proof.
  simpl. destruct (Conn_Read c buf_len w) as [r w1]. simpl.
  now destruct (reads k c w1).
Qed.

Lemma after_reads_S k c st :
  after_reads (S k) c st =
    after_reads k c (called (CConnRead c) (Conn_Read c buf_len (world st)).2 st).
Proof.
  unfold after_reads, called. rewrite reads_S. simpl.
  now rewrite <- app_assoc.
Qed.

(** As long as the reads fill the buffer the loop goes on: after [k] of them
    it stands where it would have started with their bytes accumulated. *)
Lemma ConnRead_loop_filling k : forall fuel c arr st,
  Forall fills_buffer (reads k c (world st)).1 ->
  ConnRead_loop (k + fuel) c arr st =
    ConnRead_loop fuel c (arr ++ concat (reads k c (world st)).1.*1) (after_reads k c st).
Proof.
  induction k as [|k IH]; intros fuel c arr st Hfull.
  - simpl. now rewrite app_nil_r, after_reads_0.
  - rewrite reads_S in Hfull. simpl in Hfull.
    apply Forall_cons in Hfull as [[Herr Hlen] Hrest].
    destruct (Conn_Read c buf_len (world st)) as [[p err] w] eqn:Hr.
    simpl in Herr, Hlen, Hrest. subst err.
    change (S k + fuel) with (S (k + fuel)).
    rewrite (ConnRead_loop_full _ _ _ _ _ _ Hr Hlen).
    rewrite IH by exact Hrest.
    rewrite reads_S, after_reads_S, Hr. simpl.
    now rewrite app_assoc.
Qed.

Lemma ConnRead_loop_frame fuel : forall c arr st r st',
  ConnRead_loop fuel c arr st = Ret r st' ->
  api st' = api st /\ drawn st' = drawn st.
Proof.
  induction fuel as [|fuel IH]; intros c arr st r st' H; [discriminate|].
  simpl in H. unfold bind in H. rewrite call_run in H.
  destruct (Conn_Read c buf_len (world st)) as [[p [e|]] w]; simpl in H.
  - inversion H; subst. now simpl.
  - destruct (buf_len <? length p)%nat; [discriminate|].
    destruct (length p <? buf_len)%nat.
    + inversion H; subst. now simpl.
    + apply IH in H. now simpl in H.
Qed.

Lemma ConnRead_loop_no_block fuel : forall c arr st,
  ConnRead_loop fuel c arr st <> Blocked.
Proof.
  induction fuel as [|fuel IH]; intros c arr st; [discriminate|].
  simpl. unfold bind. rewrite call_run.
  destruct (Conn_Read c buf_len (world st)) as [[p [e|]] w]; simpl; [discriminate|].
  destruct (buf_len <? length p)%nat; [discriminate|].
  destruct (length p <? buf_len)%nat; [discriminate | apply IH].
Qed.

Lemma length_string_of_list_byte l :
  String.length (String.string_of_list_byte l) = length l.
Proof.
  unfold String.string_of_list_byte.
  induction l as [|b l IH]; simpl; [reflexivity | now rewrite IH].
Qed.

(** *** Shutdown *)

Lemma close_each_listener ls : forall st,
  for_each ls (fun kv : string * Listener =>
    _err <- call (CListenerClose kv.2) (Listener_Close kv.2) ;; ret tt) st =
  Ret tt {| api := api st; world := closed_listeners ls.*2 (world st);
            drawn := drawn st; calls := calls st ++ (CListenerClose <$> ls.*2) |}.
Proof.
  induction ls as [|[k l] ls IH]; intros st; simpl.
  - unfold ret. rewrite app_nil_r. now destruct st.
  - unfold bind at 1 2. rewrite call_run. unfold ret at 1. rewrite IH. simpl.
    now rewrite <- app_assoc.
Qed.

Lemma close_each_conn cs : forall st,
  for_each cs (fun kv : string * Conn =>
    _err <- call (CConnClose kv.2) (Conn_Close kv.2) ;; ret tt) st =
  Ret tt {| api := api st; world := closed_conns cs.*2 (world st);
            drawn := drawn st; calls := calls st ++ (CConnClose <$> cs.*2) |}.
Proof.
  induction cs as [|[k c] cs IH]; intros st; simpl.
  - unfold ret. rewrite app_nil_r. now destruct st.
  - unfold bind at 1 2. rewrite call_run. unfold ret at 1. rewrite IH. simpl.
    now rewrite <- app_assoc.
Qed.

Lemma CloseAppHostFlatAdapter_run st :
  listenersMutex (api st) = RWMutex_zero ->
  connectionsMutex (api st) = RWMutex_zero ->
  CloseAppHostFlatAdapter st = Ret tt (after_shutdown st).
Proof.
  intros Hl Hc. open_state st.
  unfold CloseAppHostFlatAdapter, defer, after_shutdown, swept_conns, swept_listeners.
  unfold bind, ret, range_over; simpl.
  rewrite close_each_listener; simpl.
  rewrite close_each_conn; simpl.
  destruct ls, cn; simpl; rewrite ?app_nil_r, <- ?app_assoc; reflexivity.
Qed.

(** *** The operations that store an entry *)

Lemma store_connection_run id c st :
  connectionsMutex (api st) = RWMutex_zero ->
  (closed (api st) = false -> is_Some (connections (api st))) ->
  setConnection id (Some c) st = Ret tt (set_api (store_connection id c (api st)) st).
Proof.
  intros Hm Hsome. rewrite setConnection_run by assumption.
  unfold setConnection_result, store_connection.
  destruct (closed (api st)); [now rewrite set_api_same|].
  now destruct (Hsome eq_refl) as [m ->].
Qed.

Lemma store_listener_run service l st :
  listenersMutex (api st) = RWMutex_zero ->
  (closed (api st) = false -> is_Some (listeners (api st))) ->
  setListener service (Some l) st = Ret tt (set_api (store_listener service l (api st)) st).
Proof.
  intros Hm Hsome. rewrite setListener_run by assumption.
  unfold setListener_result, store_listener.
  destruct (closed (api st)); [now rewrite set_api_same|].
  now destruct (Hsome eq_refl) as [m ->].
Qed.

Lemma ServiceRegister_run service st :
  Inv (api st) ->
  ServiceRegister service st =
    let r := astral_Register service (world st) in
    let st1 := called (CRegister service) r.2 st in
    match r.1 with
    | inl l => Ret None (set_api (store_listener service l (api st)) st1)
    | inr e => Ret (Some (UnderlyingFailure e)) st1
    end.
Proof.
  intros [Hlm Hcm Hls Hcs _]. unfold ServiceRegister. run_op.
  destruct (astral_Register service (world st)) as [[l|e] w]; simpl; [|reflexivity].
  rewrite store_listener_run by assumption. reflexivity.
Qed.

Lemma ConnAccept_missing service st :
  listenersMutex (api st) = RWMutex_zero ->
  live_listener (api st) service = None ->
  ConnAccept service st =
    Ret ("", Some (NotFound ("[ConnAccept] not listening on port: " +:+ service))) st.
Proof. intros Hm Hl. unfold ConnAccept. now run_op. Qed.

Lemma ConnAccept_live service st l :
  Inv (api st) ->
  live_listener (api st) service = Some l ->
  ConnAccept service st =
    let r := Listener_Accept l (world st) in
    match r.1 with
    | inl c => Ret (uuid_tape (drawn st), None) (issue c (CListenerAccept l) r.2 st)
    | inr e => Ret ("", Some (UnderlyingFailure e)) (called (CListenerAccept l) r.2 st)
    end.
Proof.
  intros [Hlm Hcm Hls Hcs _] Hl. unfold ConnAccept. run_op.
  destruct (Listener_Accept l (world st)) as [[c|e] w]; simpl; [|reflexivity].
  unfold uuid_New. rewrite store_connection_run by assumption. reflexivity.
Qed.

Lemma String_neq_empty a s : String a s <> "".
Proof. discriminate. Qed.

Lemma Query_malformed identity query st e :
  identity <> "" ->
  ParsePublicKeyHex identity = inr e ->
  Query identity query st = Ret ("", Some (MalformedInput e)) st.
Proof.
  intros Hne Hp. unfold Query.
  destruct identity as [|a s]; [congruence|]. simpl. now rewrite Hp.
Qed.

Lemma Query_parsed nid query st :
  Inv (api st) ->
  (r <- call (CQuery nid query) (astral_Query nid query) ;;
   match r with
   | inr e => ret ("", Some (UnderlyingFailure e))
   | inl conn =>
       connId <- uuid_New ;; setConnection connId (Some conn) ;; ret (connId, None)
   end) st =
    let r := astral_Query nid query (world st) in
    match r.1 with
    | inl c => Ret (uuid_tape (drawn st), None) (issue c (CQuery nid query) r.2 st)
    | inr e => Ret ("", Some (UnderlyingFailure e)) (called (CQuery nid query) r.2 st)
    end.
Proof.
  intros [Hlm Hcm Hls Hcs _]. run_op.
  destruct (astral_Query nid query (world st)) as [[c|e] w]; simpl; [|reflexivity].
  unfold uuid_New. rewrite store_connection_run by assumption. reflexivity.
Qed.

Lemma Query_empty query st :
  Inv (api st) ->
  Query "" query st =
    let r := astral_Query Identity_zero query (world st) in
    match r.1 with
    | inl c =>
        Ret (uuid_tape (drawn st), None) (issue c (CQuery Identity_zero query) r.2 st)
    | inr e =>
        Ret ("", Some (UnderlyingFailure e)) (called (CQuery Identity_zero query) r.2 st)
    end.
Proof. intros HI. unfold Query. simpl. now apply Query_parsed. Qed.

Lemma Query_valid identity query st nid :
  Inv (api st) ->
  ParsePublicKeyHex identity = inl nid ->
  identity <> "" ->
  Query identity query st =
    let r := astral_Query nid query (world st) in
    match r.1 with
    | inl c => Ret (uuid_tape (drawn st), None) (issue c (CQuery nid query) r.2 st)
    | inr e => Ret ("", Some (UnderlyingFailure e)) (called (CQuery nid query) r.2 st)
    end.
Proof.
  intros HI Hp Hne. unfold Query.
  destruct identity as [|a s]; [congruence|]. simpl. rewrite Hp.
  now apply Query_parsed.
Qed.

Lemma QueryName_run name query st :
  Inv (api st) ->
  QueryName name query st =
    let r := astral_QueryName name query (world st) in
    match r.1 with
    | inl c => Ret (uuid_tape (drawn st), None) (issue c (CQueryName name query) r.2 st)
    | inr e => Ret ("", Some (UnderlyingFailure e)) (called (CQueryName name query) r.2 st)
    end.
Proof.
  intros [Hlm Hcm Hls Hcs _]. unfold QueryName. run_op.
  destruct (astral_QueryName name query (world st)) as [[c|e] w]; simpl; [|reflexivity].
  unfold uuid_New. rewrite store_connection_run by assumption. reflexivity.
Qed.

(** ** The invariant along a run *)

Lemma Inv_New : Inv NewAppHostFlatAdapter.
Proof. split; simpl; try done; eauto. Qed.

Lemma Inv_shut_down_adapter : Inv shut_down.
Proof. split; simpl; try done. Qed.

Lemma Inv_closed a : Inv a -> closed a = true -> a = shut_down.
Proof.
  intros [Hlm Hcm _ _ Hsd] Hcl. destruct (Hsd Hcl) as [Hl Hc].
  destruct a; simpl in *; subst. reflexivity.
Qed.

Lemma Inv_store_listener service l a : Inv a -> Inv (store_listener service l a).
Proof.
  intros HI. unfold store_listener. destruct (closed a) eqn:Hcl; [exact HI|].
  destruct HI as [Hlm Hcm Hls Hcs Hsd].
  destruct (Hls Hcl) as [m Hm]. rewrite Hm.
  split; simpl; eauto; congruence.
Qed.

Lemma Inv_store_connection id c a : Inv a -> Inv (store_connection id c a).
Proof.
  intros HI. unfold store_connection. destruct (closed a) eqn:Hcl; [exact HI|].
  destruct HI as [Hlm Hcm Hls Hcs Hsd].
  destruct (Hcs Hcl) as [m Hm]. rewrite Hm.
  split; simpl; eauto; congruence.
Qed.

Lemma Inv_delete_listener service a :
  closed a = false -> Inv a -> Inv (with_listeners (map_delete (listeners a) service) a).
Proof.
  intros Hcl [Hlm Hcm Hls Hcs Hsd].
  destruct (Hls Hcl) as [m Hm]. rewrite Hm.
  split; simpl; eauto; congruence.
Qed.

Lemma Inv_delete_connection id a :
  closed a = false -> Inv a -> Inv (with_connections (map_delete (connections a) id) a).
Proof.
  intros Hcl [Hlm Hcm Hls Hcs Hsd].
  destruct (Hcs Hcl) as [m Hm]. rewrite Hm.
  split; simpl; eauto; congruence.
Qed.

Lemma store_listener_closed service l a :
  closed a = true -> store_listener service l a = a.
Proof. unfold store_listener. now intros ->. Qed.

Lemma store_connection_closed id c a :
  closed a = true -> store_connection id c a = a.
Proof. unfold store_connection. now intros ->. Qed.

Lemma live_listener_closed a service : closed a = true -> live_listener a service = None.
Proof. unfold live_listener. now intros ->. Qed.

Lemma live_connection_closed a id : closed a = true -> live_connection a id = None.
Proof. unfold live_connection. now intros ->. Qed.

Ltac finish_step H :=
  inversion H; subst; clear H; unfold step_ok; simpl;
  split;
  [ auto using Inv_store_listener, Inv_store_connection, Inv_delete_listener,
      Inv_delete_connection, Inv_shut_down_adapter
  | split;
    [ intros Hclosed;
      rewrite ?store_listener_closed, ?store_connection_closed by assumption;
      first [reflexivity | congruence | idtac]
    | auto ] ].

Lemma exec_step fuel op st r st' :
  Inv (api st) -> exec fuel op st = Ret r st' -> step_ok op st r st'.
Proof.
  intros HI H. pose proof HI as [Hlm Hcm Hls Hcs Hsd].
  destruct op; unfold exec, bind, ret in H.
  - rewrite ServiceRegister_run in H by assumption. simpl in H.
    destruct (astral_Register service (world st)) as [[l|e] w]; simpl in H;
      finish_step H.
  - destruct (live_listener (api st) service) as [l|] eqn:Hl.
    + destruct (live_listener_Some _ _ _ Hl) as [Hcl _].
      destruct (Listener_Close l (world st)) as [[e|] w] eqn:Hc.
      * rewrite (ServiceClose_close_err _ _ _ _ _ Hlm Hl Hc) in H. finish_step H.
      * rewrite (ServiceClose_close_ok _ _ _ _ Hlm Hl Hc) in H. finish_step H.
    + rewrite (ServiceClose_missing _ _ Hlm Hl) in H. finish_step H.
  - destruct (live_listener (api st) service) as [l|] eqn:Hl.
    + rewrite (ConnAccept_live _ _ _ HI Hl) in H. simpl in H.
      destruct (Listener_Accept l (world st)) as [[c|e] w]; simpl in H; finish_step H.
    + rewrite (ConnAccept_missing _ _ Hlm Hl) in H. finish_step H.
  - destruct (live_connection (api st) id) as [c|] eqn:Hl.
    + destruct (live_connection_Some _ _ _ Hl) as [Hcl _].
      destruct (Conn_Close c (world st)) as [[e|] w] eqn:Hc.
      * rewrite (ConnClose_close_err _ _ _ _ _ Hcm Hl Hc) in H. finish_step H.
      * rewrite (ConnClose_close_ok _ _ _ _ Hcm Hl Hc) in H. finish_step H.
    + rewrite (ConnClose_missing _ _ Hcm Hl) in H. finish_step H.
  - destruct (live_connection (api st) id) as [c|] eqn:Hl.
    + rewrite (ConnWrite_live _ _ _ _ Hcm Hl) in H. finish_step H.
    + rewrite (ConnWrite_missing _ _ _ Hcm Hl) in H. finish_step H.
  - destruct (live_connection (api st) id) as [c|] eqn:Hl.
    + rewrite (ConnRead_live _ _ _ _ Hcm Hl) in H.
      destruct (ConnRead_loop fuel c [] st) as [[d e] st1| | |] eqn:Hloop;
        try discriminate.
      apply ConnRead_loop_frame in Hloop as [Ha Hd].
      inversion H; subst; clear H. unfold step_ok. simpl.
      rewrite Ha, Hd. split; [exact HI | split; auto].
    + rewrite (ConnRead_missing _ _ _ Hcm Hl) in H. finish_step H.
  - destruct identity as [|a s].
    + rewrite (Query_empty _ _ HI) in H. simpl in H.
      destruct (astral_Query Identity_zero query (world st)) as [[c|e] w];
        simpl in H; finish_step H.
    + destruct (ParsePublicKeyHex (String a s)) as [nid|e] eqn:Hp.
      * rewrite (Query_valid _ _ _ _ HI Hp) in H by discriminate. simpl in H.
        destruct (astral_Query nid query (world st)) as [[c|e] w];
          simpl in H; finish_step H.
      * rewrite (Query_malformed _ query st _ (String_neq_empty a s) Hp) in H.
        finish_step H.
  - rewrite (QueryName_run _ _ _ HI) in H. simpl in H.
    destruct (astral_QueryName name query (world st)) as [[c|e] w];
      simpl in H; finish_step H.
  - unfold Resolve, bind, ret in H. rewrite call_run in H.
    destruct (astral_Resolve name (world st)) as [[i|e] w]; simpl in H; finish_step H.
  - unfold api_NodeInfo, bind, ret in H.
    destruct (ParsePublicKeyHex identity) as [nid|e]; [|finish_step H].
    rewrite call_run in H.
    destruct (astral_GetNodeInfo nid (world st)) as [[i|e] w]; simpl in H; finish_step H.
  - rewrite (CloseAppHostFlatAdapter_run _ Hlm Hcm) in H. finish_step H.
    symmetry. now apply Inv_closed.
Qed.

Lemma Reachable_Inv st : Reachable st -> Inv (api st).
Proof.
  induction 1 as [w n | st fuel op r st' _ IH Hexec].
  - apply Inv_New.
  - now destruct (exec_step _ _ _ _ _ IH Hexec).
Qed.

Lemma run_Reachable fuel ops : forall st rs st',
  Reachable st -> run fuel ops st = Ret rs st' -> Reachable st'.
Proof.
  induction ops as [|op ops IH]; intros st rs st' Hst H; simpl in H.
  - inversion H; subst. exact Hst.
  - unfold bind in H.
    destruct (exec fuel op st) as [r st1| | |] eqn:Hexec; try discriminate.
    destruct (run fuel ops st1) as [rs1 st2| | |] eqn:Hrun; try discriminate.
    inversion H; subst.
    eapply IH; [|exact Hrun]. eapply Reachable_exec; eassumption.
Qed.

Lemma run_returns fuel ops st :
  returns (run fuel ops st) = true ->
  run fuel ops st = Ret (results fuel ops st) (state_after fuel ops st).
Proof.
  unfold results, state_after.
  destruct (run fuel ops st); simpl; [reflexivity | discriminate ..].
Qed.

Lemma state_after_Reachable fuel ops st :
  Reachable st -> returns (run fuel ops st) = true -> Reachable (state_after fuel ops st).
Proof.
  intros Hst H. unfold state_after.
  destruct (run fuel ops st) as [rs st'| | |] eqn:Hrun; try discriminate.
  eapply run_Reachable; eassumption.
Qed.

(** ** Lookups that find nothing *)

(** C6. On a connection identifier without a live entry (never issued,
    already removed, or the adapter is shut down) [ConnRead], [ConnWrite] and
    [ConnClose] return a not-found error and leave the state as it was: no
    call reaches a stream and nothing panics. *)
Theorem unknown_connection_fails_NotFound st id :
  Reachable st ->
  live_connection (api st) id = None ->
  forall fuel data,
    ConnRead fuel id st =
      Ret ("", Some (NotFound ("[ConnRead] not found connection with id: " +:+ id))) st /\
    ConnWrite id data st =
      Ret (Some (NotFound ("[ConnWrite] not found connection with id: " +:+ id))) st /\
    ConnClose id st =
      Ret (Some (NotFound ("[ConnClose] not found connection with id: " +:+ id))) st.
Proof.
  intros Hst Hl fuel data.
  destruct (Reachable_Inv _ Hst) as [_ Hcm _ _ _].
  auto using ConnRead_missing, ConnWrite_missing, ConnClose_missing.
Qed.

(** C7. A non-empty identity that does not parse makes [Query] return the
    parse error with no identifier, before anything else happens: in whatever
    state the adapter is, the registries, the world and the record of calls
    are as before.  An empty identity is not handed to the parser; the query
    goes out with the zero identity. *)
Theorem Query_rejects_malformed_identity st query :
  (forall identity e,
     identity <> "" ->
     ParsePublicKeyHex identity = inr e ->
     Query identity query st = Ret ("", Some (MalformedInput e)) st) /\
  (Reachable st ->
   Query "" query st =
     (let r := astral_Query Identity_zero query (world st) in
      match r.1 with
      | inl c =>
          Ret (uuid_tape (drawn st), None) (issue c (CQuery Identity_zero query) r.2 st)
      | inr e =>
          Ret ("", Some (UnderlyingFailure e)) (called (CQuery Identity_zero query) r.2 st)
      end)).
Proof.
  split.
  - intros identity e Hne Hp. now apply Query_malformed.
  - intros Hst. apply Query_empty. now apply Reachable_Inv.
Qed.

(** ** Closing a service and closing a connection *)

Lemma live_listener_deleted a service :
  live_listener (with_listeners (map_delete (listeners a) service) a) service = None.
Proof.
  unfold live_listener. simpl. destruct (closed a); [reflexivity|].
  destruct (listeners a) as [m|]; simpl; [apply lookup_delete_eq | reflexivity].
Qed.

Lemma live_connection_deleted a id :
  live_connection (with_connections (map_delete (connections a) id) a) id = None.
Proof.
  unfold live_connection. simpl. destruct (closed a); [reflexivity|].
  destruct (connections a) as [m|]; simpl; [apply lookup_delete_eq | reflexivity].
Qed.

(** C1 (where the code departs from the claim).  For a registered service
    [ServiceClose] returns what the listener's [Close] returned, and it
    removes the registry entry exactly when that close FAILED; after a close
    that succeeded the entry is still in the registry. *)
Theorem ServiceClose_removes_entry_on_failure st service l :
  Reachable st ->
  live_listener (api st) service = Some l ->
  exists st',
    ServiceClose service st =
      Ret (UnderlyingFailure <$> (Listener_Close l (world st)).1) st' /\
    live_listener (api st') service =
      match (Listener_Close l (world st)).1 with
      | Some _ => None
      | None => Some l
      end.
Proof.
  intros Hst Hl. destruct (Reachable_Inv _ Hst) as [Hlm _ _ _ _].
  destruct (Listener_Close l (world st)) as [[e|] w] eqn:Hc; simpl.
  - eexists. split; [eapply ServiceClose_close_err; eassumption|].
    simpl. apply live_listener_deleted.
  - eexists. split; [eapply ServiceClose_close_ok; eassumption|]. exact Hl.
Qed.

(** C2 (as amended).  For a live connection identifier [ConnClose] returns
    what the stream's [Close] returned.  When that close reported no error
    the entry is removed, and read, write and close on the identifier fail
    with a not-found error from then on, without reaching the stream; when it
    reported an error the entry stays in the registry. *)
Theorem ConnClose_removes_entry_on_success st id c :
  Reachable st ->
  live_connection (api st) id = Some c ->
  exists st',
    ConnClose id st = Ret (UnderlyingFailure <$> (Conn_Close c (world st)).1) st' /\
    match (Conn_Close c (world st)).1 with
    | None =>
        live_connection (api st') id = None /\
        forall fuel data,
          ConnRead fuel id st' =
            Ret ("", Some (NotFound ("[ConnRead] not found connection with id: " +:+ id)))
                st' /\
          ConnWrite id data st' =
            Ret (Some (NotFound ("[ConnWrite] not found connection with id: " +:+ id))) st' /\
          ConnClose id st' =
            Ret (Some (NotFound ("[ConnClose] not found connection with id: " +:+ id))) st'
    | Some _ => live_connection (api st') id = Some c
    end.
Proof.
  intros Hst Hl. destruct (Reachable_Inv _ Hst) as [_ Hcm _ _ _].
  destruct (Conn_Close c (world st)) as [[e|] w] eqn:Hc; simpl.
  - eexists. split; [eapply ConnClose_close_err; eassumption|]. exact Hl.
  - eexists. split; [eapply ConnClose_close_ok; eassumption|].
    split; [apply live_connection_deleted|].
    intros fuel data.
    rewrite ConnRead_missing, ConnWrite_missing, ConnClose_missing;
      simpl; auto using live_connection_deleted.
Qed.

(** ** Reading from a connection *)

(** C3. Let the first [k] reads on a live connection fill the buffer without
    error.  Then [ConnRead] has not returned after those [k] reads (a read
    that fills the buffer is followed by another read), and the read after
    them decides: if it reports an error, [ConnRead] returns that error with
    the bytes of the [k] full reads; if it reports none and falls short of the
    buffer, [ConnRead] returns the bytes of all [k + 1] reads and no error.
    In both cases exactly [k + 1] reads reached the stream. *)
Theorem ConnRead_stops_at_first_short_or_failed_read st id c k :
  Reachable st ->
  live_connection (api st) id = Some c ->
  Forall fills_buffer (reads k c (world st)).1 ->
  let acc := concat (reads k c (world st)).1.*1 in
  let st_k := after_reads k c st in
  let next := Conn_Read c buf_len (world st_k) in
  ConnRead k id st = OutOfFuel /\
  (forall fuel e,
     next.1.2 = Some e ->
     ConnRead (k + S fuel) id st =
       Ret (String.string_of_list_byte acc, Some (UnderlyingFailure e))
           (called (CConnRead c) next.2 st_k)) /\
  (forall fuel,
     next.1.2 = None ->
     length next.1.1 < buf_len ->
     ConnRead (k + S fuel) id st =
       Ret (String.string_of_list_byte (acc ++ next.1.1), None)
           (called (CConnRead c) next.2 st_k)).
Proof.
  intros Hst Hl Hfull acc st_k next.
  destruct (Reachable_Inv _ Hst) as [_ Hcm _ _ _].
  repeat split.
  - rewrite (ConnRead_live _ _ _ _ Hcm Hl).
    replace k with (k + 0) at 1 by lia.
    now rewrite ConnRead_loop_filling.
  - intros fuel e He.
    rewrite (ConnRead_live _ _ _ _ Hcm Hl), ConnRead_loop_filling by assumption.
    apply ConnRead_loop_error with (p := next.1.1).
    fold next. rewrite <- He. now destruct next as [[p err] w].
  - intros fuel He Hshort.
    rewrite (ConnRead_live _ _ _ _ Hcm Hl), ConnRead_loop_filling by assumption.
    apply ConnRead_loop_short; [|exact Hshort].
    fold next. rewrite <- He. now destruct next as [[p err] w].
Qed.

Lemma length_concat_full (rs : list (list byte * option string)) :
  Forall fills_buffer rs -> length (concat rs.*1) = length rs * buf_len.
Proof.
  induction 1 as [|r rs [_ Hlen] _ IH]; [reflexivity|].
  rewrite fmap_cons. change (concat (r.1 :: rs.*1)) with (r.1 ++ concat rs.*1).
  rewrite length_app, IH, Hlen. reflexivity.
Qed.

Lemma length_reads k : forall c w, length (reads k c w).1 = k.
Proof.
  induction k as [|k IH]; intros c w; [reflexivity|].
  rewrite reads_S. simpl. now rewrite IH.
Qed.

(** C9. When a read fails after [k >= 1] reads that each filled the buffer,
    [ConnRead] returns the error together with the bytes of those [k] reads,
    [k] buffers long; the partial data is not dropped. *)
Theorem ConnRead_failure_keeps_accumulated_bytes st id c k e :
  Reachable st ->
  live_connection (api st) id = Some c ->
  0 < k ->
  Forall fills_buffer (reads k c (world st)).1 ->
  (Conn_Read c buf_len (world (after_reads k c st))).1.2 = Some e ->
  forall fuel,
    exists data st',
      ConnRead (k + S fuel) id st = Ret (data, Some (UnderlyingFailure e)) st' /\
      data = String.string_of_list_byte (concat (reads k c (world st)).1.*1) /\
      String.length data = k * buf_len.
Proof.
  intros Hst Hl Hk Hfull He fuel.
  destruct (Reachable_Inv _ Hst) as [_ Hcm _ _ _].
  destruct (Conn_Read c buf_len (world (after_reads k c st))) as [[p err] w] eqn:Hr.
  simpl in He. subst err.
  eexists _, _. split; [|split; [reflexivity|]].
  - rewrite (ConnRead_live _ _ _ _ Hcm Hl), ConnRead_loop_filling by assumption.
    eapply ConnRead_loop_error. exact Hr.
  - rewrite length_string_of_list_byte, length_concat_full by assumption.
    now rewrite length_reads.
Qed.

(** ** After shutdown *)

Lemma getListener_closed service st :
  Inv (api st) -> closed (api st) = true -> getListener service st = Ret None st.
Proof.
  intros [Hlm _ _ _ _] Hcl. rewrite getListener_run by assumption.
  now rewrite live_listener_closed.
Qed.

Lemma getConnection_closed id st :
  Inv (api st) -> closed (api st) = true -> getConnection id st = Ret None st.
Proof.
  intros [_ Hcm _ _ _] Hcl. rewrite getConnection_run by assumption.
  now rewrite live_connection_closed.
Qed.

Lemma setListener_closed service listener st :
  Inv (api st) -> closed (api st) = true -> setListener service listener st = Ret tt st.
Proof.
  intros [Hlm _ _ _ _] Hcl. rewrite setListener_run by assumption.
  unfold setListener_result. now rewrite Hcl.
Qed.

Lemma setConnection_closed id connection st :
  Inv (api st) -> closed (api st) = true -> setConnection id connection st = Ret tt st.
Proof.
  intros [_ Hcm _ _ _] Hcl. rewrite setConnection_run by assumption.
  unfold setConnection_result. now rewrite Hcl.
Qed.

(** Once the flag is set every operation returns, and the adapter it leaves
    is the one it found. *)
Lemma exec_after_shutdown fuel op st :
  Inv (api st) ->
  closed (api st) = true ->
  exists r st', exec fuel op st = Ret r st' /\ api st' = api st.
Proof.
  intros HI Hcl. pose proof HI as [Hlm Hcm _ _ _].
  assert (Hret : exists r st', exec fuel op st = Ret r st').
  { pose proof (live_listener_closed (api st)) as Hll.
    pose proof (live_connection_closed (api st)) as Hlc.
    destruct op; unfold exec, bind, ret.
    - rewrite ServiceRegister_run by assumption. simpl.
      destruct (astral_Register service (world st)) as [[l|e] w]; simpl; eauto.
    - rewrite ServiceClose_missing by auto. eauto.
    - rewrite ConnAccept_missing by auto. eauto.
    - rewrite ConnClose_missing by auto. eauto.
    - rewrite ConnWrite_missing by auto. eauto.
    - rewrite ConnRead_missing by auto. eauto.
    - destruct identity as [|a s].
      + rewrite Query_empty by assumption. simpl.
        destruct (astral_Query Identity_zero query (world st)) as [[c|e] w];
          simpl; eauto.
      + destruct (ParsePublicKeyHex (String a s)) as [nid|e] eqn:Hp.
        * rewrite (Query_valid _ _ _ _ HI Hp) by discriminate. simpl.
          destruct (astral_Query nid query (world st)) as [[c|e] w]; simpl; eauto.
        * rewrite (Query_malformed _ query st _ (String_neq_empty a s) Hp). eauto.
    - rewrite QueryName_run by assumption. simpl.
      destruct (astral_QueryName name query (world st)) as [[c|e] w]; simpl; eauto.
    - unfold Resolve, bind, ret. rewrite call_run.
      destruct (astral_Resolve name (world st)) as [[i|e] w]; simpl; eauto.
    - unfold api_NodeInfo, bind, ret.
      destruct (ParsePublicKeyHex identity) as [nid|e]; [|eauto].
      rewrite call_run.
      destruct (astral_GetNodeInfo nid (world st)) as [[i|e] w]; simpl; eauto.
    - rewrite CloseAppHostFlatAdapter_run by assumption. eauto. }
  destruct Hret as (r & st' & Hexec). exists r, st'. split; [exact Hexec|].
  destruct (exec_step _ _ _ _ _ HI Hexec) as (_ & Hsame & _). auto.
Qed.

Lemma run_after_shutdown fuel ops : forall st rs st',
  Inv (api st) ->
  closed (api st) = true ->
  run fuel ops st = Ret rs st' ->
  api st' = api st.
Proof.
  induction ops as [|op ops IH]; intros st rs st' HI Hcl H; simpl in H.
  - now inversion H.
  - unfold bind in H.
    destruct (exec fuel op st) as [r st1| | |] eqn:Hexec; try discriminate.
    destruct (run fuel ops st1) as [rs1 st2| | |] eqn:Hrun; try discriminate.
    inversion H; subst.
    destruct (exec_step _ _ _ _ _ HI Hexec) as (HI1 & Hsame & _).
    specialize (Hsame Hcl).
    rewrite <- Hsame. eapply IH; [exact HI1 | congruence | exact Hrun].
Qed.

(** C4. In a state reached with the shutdown flag set, both lookups report
    not-found and both writes return without changing anything, whatever
    their arguments; the adapter is the shut-down one, with no registry left,
    and it stays so through every further run of operations. *)
Theorem registries_inert_after_shutdown st :
  Reachable st ->
  closed (api st) = true ->
  api st = shut_down /\
  (forall service, getListener service st = Ret None st) /\
  (forall id, getConnection id st = Ret None st) /\
  (forall service listener, setListener service listener st = Ret tt st) /\
  (forall id connection, setConnection id connection st = Ret tt st) /\
  (forall fuel ops rs st', run fuel ops st = Ret rs st' -> api st' = shut_down).
Proof.
  intros Hst Hcl. pose proof (Reachable_Inv _ Hst) as HI.
  pose proof (Inv_closed _ HI Hcl) as Hsd.
  repeat split;
    auto using getListener_closed, getConnection_closed, setListener_closed,
      setConnection_closed.
  intros fuel ops rs st' Hrun. rewrite <- Hsd.
  eapply run_after_shutdown; eassumption.
Qed.

Lemma setListener_waits service listener st :
  RWMutex_Lock (listenersMutex (api st)) = None ->
  setListener service listener st = Blocked.
Proof.
  intros Hheld. unfold setListener, bind, listenersMutex_Lock, acquire.
  now rewrite Hheld.
Qed.

Lemma setConnection_waits id connection st :
  RWMutex_Lock (connectionsMutex (api st)) = None ->
  setConnection id connection st = Blocked.
Proof.
  intros Hheld. unfold setConnection, bind, connectionsMutex_Lock, acquire.
  now rewrite Hheld.
Qed.

(** C10. After shutdown both maps are nil.  [setListener] and
    [setConnection] return before they reach the map, for every argument, and
    every public operation returns (nothing panics) and leaves the adapter as
    it is.  The flag is what prevents the write: the same calls with the flag
    cleared panic on the nil map.  Both functions take the write lock before
    anything else: while it cannot be had they do not proceed. *)
Theorem no_nil_map_write_after_shutdown st :
  Reachable st ->
  closed (api st) = true ->
  listeners (api st) = None /\
  connections (api st) = None /\
  (forall service listener, setListener service listener st = Ret tt st) /\
  (forall id connection, setConnection id connection st = Ret tt st) /\
  (forall fuel op, exists r st', exec fuel op st = Ret r st' /\ api st' = api st) /\
  (forall service l,
     setListener service (Some l) (set_api (with_closed false (api st)) st) =
       Panic "assignment to entry in nil map") /\
  (forall id c,
     setConnection id (Some c) (set_api (with_closed false (api st)) st) =
       Panic "assignment to entry in nil map") /\
  (forall service listener held,
     RWMutex_Lock held = None ->
     setListener service listener (set_api (with_listenersMutex held (api st)) st) =
       Blocked) /\
  (forall id connection held,
     RWMutex_Lock held = None ->
     setConnection id connection (set_api (with_connectionsMutex held (api st)) st) =
       Blocked).
Proof.
  intros Hst Hcl. pose proof (Reachable_Inv _ Hst) as HI.
  rewrite (Inv_closed _ HI Hcl) at 1 2.
  split; [reflexivity|]. split; [reflexivity|].
  split; [auto using setListener_closed|].
  split; [auto using setConnection_closed|].
  split; [auto using exec_after_shutdown|].
  split; [|split; [|split]].
  - intros service l. rewrite setListener_run.
    + unfold setListener_result. simpl. now rewrite (Inv_closed _ HI Hcl).
    + simpl. now destruct HI.
  - intros id c. rewrite setConnection_run.
    + unfold setConnection_result. simpl. now rewrite (Inv_closed _ HI Hcl).
    + simpl. now destruct HI.
  - intros service listener held Hheld. now apply setListener_waits.
  - intros id connection held Hheld. now apply setConnection_waits.
Qed.

(** ** Shutdown *)

Lemma swept_listeners_perm st :
  swept_listeners st ≡ₚ registry_values (listeners (api st)).
Proof.
  unfold swept_listeners, registry_values.
  destruct (listeners (api st)) as [m|]; [|reflexivity].
  apply fmap_Permutation, range_order_perm.
Qed.

Lemma swept_conns_perm st :
  swept_conns st ≡ₚ registry_values (connections (api st)).
Proof.
  unfold swept_conns, registry_values.
  destruct (connections (api st)) as [m|]; [|reflexivity].
  apply fmap_Permutation, range_order_perm.
Qed.

(** C8. Shutdown always returns.  On the way it calls [Close] once for every
    entry of the listener registry and then once for every entry of the
    connection registry (in some order, and nothing else), whatever those
    calls report; it leaves both maps nil and the flag set.  From then on
    read, write and close on any identifier fail with a not-found error. *)
Theorem shutdown_closes_every_resource st :
  Reachable st ->
  exists ls cs st',
    CloseAppHostFlatAdapter st = Ret tt st' /\
    ls ≡ₚ registry_values (listeners (api st)) /\
    cs ≡ₚ registry_values (connections (api st)) /\
    calls st' = calls st ++ (CListenerClose <$> ls) ++ (CConnClose <$> cs) /\
    world st' = closed_conns cs (closed_listeners ls (world st)) /\
    closed (api st') = true /\
    listeners (api st') = None /\
    connections (api st') = None /\
    forall id fuel data,
      ConnRead fuel id st' =
        Ret ("", Some (NotFound ("[ConnRead] not found connection with id: " +:+ id))) st' /\
      ConnWrite id data st' =
        Ret (Some (NotFound ("[ConnWrite] not found connection with id: " +:+ id))) st' /\
      ConnClose id st' =
        Ret (Some (NotFound ("[ConnClose] not found connection with id: " +:+ id))) st'.
Proof.
  intros Hst. destruct (Reachable_Inv _ Hst) as [Hlm Hcm _ _ _].
  exists (swept_listeners st), (swept_conns st), (after_shutdown st).
  split; [now apply CloseAppHostFlatAdapter_run|].
  split; [apply swept_listeners_perm|].
  split; [apply swept_conns_perm|].
  do 5 (split; [reflexivity|]).
  intros id fuel data.
  rewrite ConnRead_missing, ConnWrite_missing, ConnClose_missing; simpl; auto.
Qed.

(** ** Identifiers *)

Lemma run_issued fuel ops : forall st rs st',
  Inv (api st) ->
  run fuel ops st = Ret rs st' ->
  exists k, issued_ids ops rs = uuid_tape <$> seq (drawn st) k.
Proof.
  induction ops as [|op ops IH]; intros st rs st' HI H; simpl in H.
  - inversion H; subst. now exists 0.
  - unfold bind in H.
    destruct (exec fuel op st) as [r st1| | |] eqn:Hexec; try discriminate.
    destruct (run fuel ops st1) as [rs1 st2| | |] eqn:Hrun; try discriminate.
    inversion H; subst.
    destruct (exec_step _ _ _ _ _ HI Hexec) as (HI1 & _ & Hid).
    destruct (IH _ _ _ HI1 Hrun) as [k Hk].
    simpl. destruct (issued op r) as [id|].
    + destruct Hid as [-> Hd]. exists (S k). simpl. now rewrite Hk, Hd.
    + exists k. now rewrite Hk, Hid.
Qed.

(** C5. Along every run of the adapter from its creation, the identifiers
    returned by the accepts and queries that succeeded are pairwise distinct:
    none was returned by an earlier call, whether or not its entry has been
    removed since.  They are the values the generator handed out, in order,
    and the generator does not repeat itself ([uuid_unique]). *)
Theorem issued_identifiers_are_distinct fuel ops w n rs st' :
  run fuel ops (initial w n) = Ret rs st' ->
  NoDup (issued_ids ops rs).
Proof.
  intros Hrun.
  destruct (run_issued fuel ops (initial w n) rs st' Inv_New Hrun) as [k ->].
  apply (@NoDup_fmap_2 _ _ uuid_tape uuid_unique), NoDup_seq.
Qed.

End Facts.

(** ** The scenarios, replayed *)

Lemma echo_close_fails_Reachable : Reachable Scripted.echo_close_fails.
Proof.
  apply state_after_Reachable; [apply Reachable_initial | vm_compute; reflexivity].
Qed.

Lemma echo_close_succeeds_Reachable : Reachable Scripted.echo_close_succeeds.
Proof.
  apply state_after_Reachable; [apply Reachable_initial | vm_compute; reflexivity].
Qed.

Lemma conn_close_fails_Reachable : Reachable Scripted.conn_close_fails.
Proof.
  apply state_after_Reachable; [apply Reachable_initial | vm_compute; reflexivity].
Qed.

Lemma conn_close_succeeds_Reachable : Reachable Scripted.conn_close_succeeds.
Proof.
  apply state_after_Reachable; [apply Reachable_initial | vm_compute; reflexivity].
Qed.

(** C1, at the failing input: "echo" is registered and the listener's
    [Close] fails.  The error comes back and the entry is gone.  When the
    [Close] succeeds the entry is still there. *)
Lemma ServiceClose_removes_entry_on_failure_witness :
  (Reachable Scripted.echo_close_fails /\
   live_listener (api Scripted.echo_close_fails) "echo" = Some 3%positive /\
   exists st',
     ServiceClose "echo" Scripted.echo_close_fails =
       Ret (Some (UnderlyingFailure "boom")) st' /\
     live_listener (api st') "echo" = None) /\
  (Reachable Scripted.echo_close_succeeds /\
   live_listener (api Scripted.echo_close_succeeds) "echo" = Some 3%positive /\
   exists st',
     ServiceClose "echo" Scripted.echo_close_succeeds = Ret None st' /\
     live_listener (api st') "echo" = Some 3%positive).
Proof.
  split.
  - split; [exact echo_close_fails_Reachable|].
    split; [reflexivity|].
    exact (ServiceClose_removes_entry_on_failure Scripted.echo_close_fails "echo"
             3%positive echo_close_fails_Reachable eq_refl).
  - split; [exact echo_close_succeeds_Reachable|].
    split; [reflexivity|].
    exact (ServiceClose_removes_entry_on_failure Scripted.echo_close_succeeds "echo"
             3%positive echo_close_succeeds_Reachable eq_refl).
Defined.

(** C2, the claim as stated fails: the stream's [Close] reports an error,
    [ConnClose] returns it, and the entry is still there; a write on the same
    identifier afterwards reaches the stream and succeeds. *)
Lemma ConnClose_failed_close_keeps_entry :
  returned
    ((closing <- ConnClose "uuid-0" ;;
      entry <- getConnection "uuid-0" ;;
      writing <- ConnWrite "uuid-0" "hi" ;;
      ret (closing, entry, writing)) Scripted.conn_close_fails)
  = Some (Some (UnderlyingFailure "boom"), Some 7%positive, None).
Proof. vm_compute. reflexivity. Qed.

(** C2 as amended, replayed: the stream closes without error, the entry is
    removed, and the identifier is unknown from then on. *)
Lemma ConnClose_removes_entry_on_success_witness :
  Reachable Scripted.conn_close_succeeds /\
  live_connection (api Scripted.conn_close_succeeds) "uuid-0" = Some 7%positive /\
  exists st',
    ConnClose "uuid-0" Scripted.conn_close_succeeds = Ret None st' /\
    live_connection (api st') "uuid-0" = None /\
    forall fuel data,
      ConnRead fuel "uuid-0" st' =
        Ret ("", Some (NotFound "[ConnRead] not found connection with id: uuid-0")) st' /\
      ConnWrite "uuid-0" data st' =
        Ret (Some (NotFound "[ConnWrite] not found connection with id: uuid-0")) st' /\
      ConnClose "uuid-0" st' =
        Ret (Some (NotFound "[ConnClose] not found connection with id: uuid-0")) st'.
Proof.
  split; [exact conn_close_succeeds_Reachable|].
  split; [reflexivity|].
  exact (ConnClose_removes_entry_on_success Scripted.conn_close_succeeds "uuid-0"
           7%positive conn_close_succeeds_Reachable eq_refl).
Defined.

Lemma two_full_then_short_Reachable : Reachable Scripted.two_full_then_short.
Proof.
  apply state_after_Reachable; [apply Reachable_initial | vm_compute; reflexivity].
Qed.

Lemma two_full_then_error_Reachable : Reachable Scripted.two_full_then_error.
Proof.
  apply state_after_Reachable; [apply Reachable_initial | vm_compute; reflexivity].
Qed.

Lemma two_open_Reachable : Reachable Scripted.two_open.
Proof.
  apply state_after_Reachable; [apply Reachable_initial | vm_compute; reflexivity].
Qed.

Lemma shut_Reachable : Reachable Scripted.shut.
Proof.
  apply state_after_Reachable; [apply Reachable_initial | vm_compute; reflexivity].
Qed.

(** C3, replayed: two full buffers and then two bytes.  Two reads are not
    enough; with a third [ConnRead] returns all 8194 bytes and no error. *)
Lemma ConnRead_stops_at_first_short_or_failed_read_witness :
  Reachable Scripted.two_full_then_short /\
  live_connection (api Scripted.two_full_then_short) "uuid-0" = Some 7%positive /\
  Forall fills_buffer (reads 2 7%positive (world Scripted.two_full_then_short)).1 /\
  ConnRead 2 "uuid-0" Scripted.two_full_then_short = OutOfFuel /\
  forall fuel,
    returned (ConnRead (2 + S fuel) "uuid-0" Scripted.two_full_then_short) =
      Some (String.string_of_list_byte
              (Scripted.chunk "a" ++ Scripted.chunk "b" ++ ["h"; "i"]%byte), None).
Proof.
  assert (Hfull : Forall fills_buffer
                    (reads 2 7%positive (world Scripted.two_full_then_short)).1).
  { vm_compute. repeat constructor. }
  pose proof (ConnRead_stops_at_first_short_or_failed_read
                Scripted.two_full_then_short "uuid-0" 7%positive 2
                two_full_then_short_Reachable eq_refl Hfull) as H.
  cbv zeta in H. destruct H as (Hout & _ & Hshort).
  split; [exact two_full_then_short_Reachable|].
  split; [reflexivity|].
  split; [exact Hfull|].
  split; [exact Hout|].
  intros fuel. rewrite (Hshort fuel eq_refl ltac:(vm_compute; lia)).
  vm_compute. reflexivity.
Defined.

(** C9, replayed: two full buffers and then a failing read.  [ConnRead]
    returns the error and the 8192 bytes read before it. *)
Lemma ConnRead_failure_keeps_accumulated_bytes_witness :
  Reachable Scripted.two_full_then_error /\
  live_connection (api Scripted.two_full_then_error) "uuid-0" = Some 7%positive /\
  0 < 2 /\
  Forall fills_buffer (reads 2 7%positive (world Scripted.two_full_then_error)).1 /\
  forall fuel,
    exists data st',
      ConnRead (2 + S fuel) "uuid-0" Scripted.two_full_then_error =
        Ret (data, Some (UnderlyingFailure "EOF")) st' /\
      data = String.string_of_list_byte
               (concat (reads 2 7%positive (world Scripted.two_full_then_error)).1.*1) /\
      String.length data = 2 * buf_len.
Proof.
  assert (Hfull : Forall fills_buffer
                    (reads 2 7%positive (world Scripted.two_full_then_error)).1).
  { vm_compute. repeat constructor. }
  split; [exact two_full_then_error_Reachable|].
  split; [reflexivity|].
  split; [lia|].
  split; [exact Hfull|].
  exact (ConnRead_failure_keeps_accumulated_bytes
           Scripted.two_full_then_error "uuid-0" 7%positive 2 "EOF"
           two_full_then_error_Reachable eq_refl ltac:(lia) Hfull eq_refl).
Defined.

(** C4, replayed on an adapter shut down with a stream open. *)
Lemma registries_inert_after_shutdown_witness :
  Reachable Scripted.shut /\
  closed (api Scripted.shut) = true /\
  getConnection "uuid-0" Scripted.shut = Ret None Scripted.shut /\
  setConnection "uuid-0" (Some 7%positive) Scripted.shut = Ret tt Scripted.shut /\
  getListener "echo" Scripted.shut = Ret None Scripted.shut /\
  setListener "echo" (Some 3%positive) Scripted.shut = Ret tt Scripted.shut.
Proof.
  destruct (registries_inert_after_shutdown Scripted.shut shut_Reachable eq_refl)
    as (_ & Hgl & Hgc & Hsl & Hsc & _).
  split; [exact shut_Reachable|].
  split; [reflexivity|].
  split; [apply Hgc|]. split; [apply Hsc|]. split; [apply Hgl | apply Hsl].
Defined.

(** C10, replayed: after the shutdown a registration and a query that the
    stack answers still return, and store nothing. *)
Lemma no_nil_map_write_after_shutdown_witness :
  Reachable Scripted.shut /\
  closed (api Scripted.shut) = true /\
  listeners (api Scripted.shut) = None /\
  connections (api Scripted.shut) = None /\
  (exists r st', exec 1 (OServiceRegister "echo") Scripted.shut = Ret r st' /\
                 api st' = api Scripted.shut) /\
  (exists r st', exec 1 (OQuery "" "ping") Scripted.shut = Ret r st' /\
                 api st' = api Scripted.shut).
Proof.
  destruct (no_nil_map_write_after_shutdown Scripted.shut shut_Reachable eq_refl)
    as (Hl & Hc & _ & _ & Hexec & _).
  split; [exact shut_Reachable|].
  split; [reflexivity|].
  split; [exact Hl|]. split; [exact Hc|].
  split; apply Hexec.
Defined.

(** After the shutdown the stack still answers: a registration and a query
    return without error, the query even with an identifier, but nothing was
    stored and the identifier is unknown to the next call. *)
Example stack_still_answers_after_shutdown :
  returned
    (run 1 [OServiceRegister "echo"; OQuery "" "ping"; OConnRead "uuid-1";
            OConnAccept "echo"] Scripted.shut)
  = Some [RErr None; RStr "uuid-1" None;
          RStr "" (Some (NotFound "[ConnRead] not found connection with id: uuid-1"));
          RStr "" (Some (NotFound "[ConnAccept] not listening on port: echo"))].
Proof. vm_compute. reflexivity. Qed.

(** C5, replayed on a session that issues three identifiers. *)
Lemma issued_identifiers_are_distinct_witness :
  run 1 Scripted.session Scripted.session_start =
    Ret (results 1 Scripted.session Scripted.session_start)
        (state_after 1 Scripted.session Scripted.session_start) /\
  issued_ids Scripted.session (results 1 Scripted.session Scripted.session_start) =
    ["uuid-0"; "uuid-1"; "uuid-2"] /\
  NoDup (issued_ids Scripted.session (results 1 Scripted.session Scripted.session_start)).
Proof.
  assert (Hrun : run 1 Scripted.session Scripted.session_start =
                 Ret (results 1 Scripted.session Scripted.session_start)
                     (state_after 1 Scripted.session Scripted.session_start)).
  { apply run_returns. vm_compute. reflexivity. }
  split; [exact Hrun|].
  split; [vm_compute; reflexivity|].
  exact (issued_identifiers_are_distinct 1 Scripted.session _ 0 _ _ Hrun).
Defined.

(** C6, replayed: an identifier that was never issued. *)
Lemma unknown_connection_fails_NotFound_witness :
  Reachable Scripted.fresh /\
  live_connection (api Scripted.fresh) "nope" = None /\
  ConnRead 1 "nope" Scripted.fresh =
    Ret ("", Some (NotFound "[ConnRead] not found connection with id: nope"))
        Scripted.fresh /\
  ConnWrite "nope" "hi" Scripted.fresh =
    Ret (Some (NotFound "[ConnWrite] not found connection with id: nope")) Scripted.fresh /\
  ConnClose "nope" Scripted.fresh =
    Ret (Some (NotFound "[ConnClose] not found connection with id: nope")) Scripted.fresh.
Proof.
  split; [apply Reachable_initial|].
  split; [reflexivity|].
  exact (unknown_connection_fails_NotFound Scripted.fresh "nope"
           (Reachable_initial _ 0) eq_refl 1 "hi").
Defined.

(** C7, replayed: "zz" is no public key, and the empty identity, which the
    parser would reject as well, goes out as a query (here to a peer that
    cannot be reached). *)
Lemma Query_rejects_malformed_identity_witness :
  Reachable Scripted.conn_close_fails /\
  "zz" <> "" /\
  Scripted.parse "zz" = inr "invalid public key" /\
  Scripted.parse "" = inr "invalid public key" /\
  Query "zz" "ping" Scripted.conn_close_fails =
    Ret ("", Some (MalformedInput "invalid public key")) Scripted.conn_close_fails /\
  returned (Query "" "ping" Scripted.conn_close_fails) =
    Some ("", Some (UnderlyingFailure "boom")).
Proof.
  destruct (Query_rejects_malformed_identity Scripted.conn_close_fails "ping")
    as [Hbad Hempty].
  split; [exact conn_close_fails_Reachable|].
  split; [discriminate|].
  split; [reflexivity|]. split; [reflexivity|].
  split.
  - apply Hbad; [discriminate | reflexivity].
  - rewrite (Hempty conn_close_fails_Reachable). vm_compute. reflexivity.
Defined.

(** C8, replayed on two open streams, the first of which fails to close. *)
Lemma shutdown_closes_every_resource_witness :
  Reachable Scripted.two_open /\
  registry_values (connections (api Scripted.two_open)) = [8%positive; 7%positive] /\
  exists ls cs st',
    CloseAppHostFlatAdapter Scripted.two_open = Ret tt st' /\
    ls ≡ₚ registry_values (listeners (api Scripted.two_open)) /\
    cs ≡ₚ [8%positive; 7%positive] /\
    calls st' = calls Scripted.two_open ++ (CListenerClose <$> ls) ++ (CConnClose <$> cs) /\
    closed (api st') = true /\
    ConnRead 1 "uuid-0" st' =
      Ret ("", Some (NotFound "[ConnRead] not found connection with id: uuid-0")) st' /\
    ConnRead 1 "uuid-1" st' =
      Ret ("", Some (NotFound "[ConnRead] not found connection with id: uuid-1")) st'.
Proof.
  split; [exact two_open_Reachable|].
  split; [vm_compute; reflexivity|].
  destruct (shutdown_closes_every_resource Scripted.two_open two_open_Reachable)
    as (ls & cs & st' & Hrun & Hls & Hcs & Hcalls & _ & Hcl & _ & _ & Hnf).
  exists ls, cs, st'.
  split; [exact Hrun|]. split; [exact Hls|]. split; [exact Hcs|].
  split; [exact Hcalls|]. split; [exact Hcl|].
  split; [apply (Hnf "uuid-0" 1 "") | apply (Hnf "uuid-1" 1 "")].
Defined.

(** * Further properties of the operations *)

Section Coverage.
Context `{Env : Environment}.

(** ** Entries after a store *)

Lemma live_listener_stored service l a :
  closed a = false ->
  is_Some (listeners a) ->
  live_listener (store_listener service l a) service = Some l /\
  forall other, other <> service ->
    live_listener (store_listener service l a) other = live_listener a other.
Proof.
  intros Hcl [m Hm]. unfold store_listener, live_listener.
  rewrite Hcl, Hm. simpl. rewrite Hcl. split.
  - apply lookup_insert_eq.
  - intros other Hne. now apply lookup_insert_ne.
Qed.

Lemma live_connection_stored id c a :
  closed a = false ->
  is_Some (connections a) ->
  live_connection (store_connection id c a) id = Some c /\
  forall other, other <> id ->
    live_connection (store_connection id c a) other = live_connection a other.
Proof.
  intros Hcl [m Hm]. unfold store_connection, live_connection.
  rewrite Hcl, Hm. simpl. rewrite Hcl. split.
  - apply lookup_insert_eq.
  - intros other Hne. now apply lookup_insert_ne.
Qed.

Lemma listeners_store_connection id c a :
  listeners (store_connection id c a) = listeners a.
Proof. unfold store_connection. now destruct (closed a). Qed.

Lemma connections_store_listener service l a :
  connections (store_listener service l a) = connections a.
Proof. unfold store_listener. now destruct (closed a). Qed.

Lemma closed_store_connection id c a :
  closed (store_connection id c a) = closed a.
Proof. unfold store_connection. now destruct (closed a) eqn:E. Qed.

Lemma closed_store_listener service l a :
  closed (store_listener service l a) = closed a.
Proof. unfold store_listener. now destruct (closed a) eqn:E. Qed.

(** ** Registering and accepting *)

(** X1. On an adapter that is not shut down [ServiceRegister] makes one
    registration call.  When the stack answers with a listener it is found
    under the service name from then on, replacing whatever was there without
    a [Close]; the other names and the connections are untouched.  When the
    stack refuses, its error comes back and the adapter is as before. *)
Theorem ServiceRegister_stores_the_listener st service :
  Reachable st ->
  closed (api st) = false ->
  exists st',
    ServiceRegister service st =
      Ret (match (astral_Register service (world st)).1 with
           | inl _ => None
           | inr e => Some (UnderlyingFailure e)
           end) st' /\
    calls st' = calls st ++ [CRegister service] /\
    connections (api st') = connections (api st) /\
    match (astral_Register service (world st)).1 with
    | inl l =>
        live_listener (api st') service = Some l /\
        forall other, other <> service ->
          live_listener (api st') other = live_listener (api st) other
    | inr _ => api st' = api st
    end.
Proof.
  intros Hst Hcl. pose proof (Reachable_Inv _ Hst) as HI.
  rewrite (ServiceRegister_run _ _ HI). simpl.
  destruct (astral_Register service (world st)) as [[l|e] w]; simpl.
  - eexists. split; [reflexivity|]. simpl.
    split; [reflexivity|]. split; [apply connections_store_listener|].
    apply live_listener_stored; [exact Hcl | exact (Inv_listeners _ HI Hcl)].
  - eexists. split; [reflexivity|]. simpl. auto.
Qed.

(** X2. On a service name with no live entry (never registered, or the
    adapter is shut down) [ServiceClose] and [ConnAccept] return a not-found
    error and leave the state as it was: no call reaches the stack and no
    identifier is drawn. *)
Theorem unknown_service_fails_NotFound st service :
  Reachable st ->
  live_listener (api st) service = None ->
  ServiceClose service st =
    Ret (Some (NotFound ("[ServiceClose] not listening on port: " +:+ service))) st /\
  ConnAccept service st =
    Ret ("", Some (NotFound ("[ConnAccept] not listening on port: " +:+ service))) st.
Proof.
  intros Hst Hl. destruct (Reachable_Inv _ Hst) as [Hlm _ _ _ _].
  auto using ServiceClose_missing, ConnAccept_missing.
Qed.

(** X3. [ConnAccept] on a registered service makes one [Accept] call on its
    listener.  When a stream comes back it is stored under the next uuid,
    which is returned; the listeners are untouched and so is every other
    connection identifier.  When [Accept] fails, its error comes back with no
    identifier, no uuid is drawn and the adapter is as before. *)
Theorem ConnAccept_stores_the_stream st service l :
  Reachable st ->
  live_listener (api st) service = Some l ->
  exists st',
    ConnAccept service st =
      Ret (match (Listener_Accept l (world st)).1 with
           | inl _ => (uuid_tape (drawn st), None)
           | inr e => ("", Some (UnderlyingFailure e))
           end) st' /\
    calls st' = calls st ++ [CListenerAccept l] /\
    listeners (api st') = listeners (api st) /\
    match (Listener_Accept l (world st)).1 with
    | inl c =>
        drawn st' = S (drawn st) /\
        live_connection (api st') (uuid_tape (drawn st)) = Some c /\
        forall other, other <> uuid_tape (drawn st) ->
          live_connection (api st') other = live_connection (api st) other
    | inr _ => api st' = api st /\ drawn st' = drawn st
    end.
Proof.
  intros Hst Hl. pose proof (Reachable_Inv _ Hst) as HI.
  destruct (live_listener_Some _ _ _ Hl) as [Hcl _].
  rewrite (ConnAccept_live _ _ _ HI Hl). simpl.
  destruct (Listener_Accept l (world st)) as [[c|e] w]; simpl.
  - eexists. split; [reflexivity|]. simpl.
    split; [reflexivity|]. split; [apply listeners_store_connection|].
    split; [reflexivity|].
    apply live_connection_stored; [exact Hcl | exact (Inv_connections _ HI Hcl)].
  - eexists. split; [reflexivity|]. simpl. auto.
Qed.

(** ** Queries *)

Lemma Query_target identity query st nid :
  Inv (api st) ->
  target_identity identity = inl nid ->
  Query identity query st =
    let r := astral_Query nid query (world st) in
    match r.1 with
    | inl c => Ret (uuid_tape (drawn st), None) (issue c (CQuery nid query) r.2 st)
    | inr e => Ret ("", Some (UnderlyingFailure e)) (called (CQuery nid query) r.2 st)
    end.
Proof.
  intros HI Ht. unfold Query. fold (target_identity identity). rewrite Ht.
  now apply Query_parsed.
Qed.



(** X6. After shutdown the stack is still called.  A registration that the
    stack grants returns no error and a query that the stack answers returns
    a new identifier, but the listener or stream obtained is neither stored
    nor closed: the adapter is the shut-down one as before, the only call
    made is the registration or the query, and the identifier returned has no
    live entry. *)
Theorem answers_are_dropped_after_shutdown st :
  Reachable st ->
  closed (api st) = true ->
  (forall service l w,
     astral_Register service (world st) = (inl l, w) ->
     exists st',
       ServiceRegister service st = Ret None st' /\
       api st' = api st /\
       calls st' = calls st ++ [CRegister service] /\
       live_listener (api st') service = None) /\
  (forall name query c w,
     astral_QueryName name query (world st) = (inl c, w) ->
     exists st',
       QueryName name query st = Ret (uuid_tape (drawn st), None) st' /\
       api st' = api st /\
       calls st' = calls st ++ [CQueryName name query] /\
       live_connection (api st') (uuid_tape (drawn st)) = None) /\
  (forall identity query nid c w,
     target_identity identity = inl nid ->
     astral_Query nid query (world st) = (inl c, w) ->
     exists st',
       Query identity query st = Ret (uuid_tape (drawn st), None) st' /\
       api st' = api st /\
       calls st' = calls st ++ [CQuery nid query] /\
       live_connection (api st') (uuid_tape (drawn st)) = None).
Proof.
  intros Hst Hcl. pose proof (Reachable_Inv _ Hst) as HI.
  split; [|split].
  - intros service l w Hr. rewrite (ServiceRegister_run _ _ HI), Hr. simpl.
    eexists. split; [reflexivity|]. simpl.
    rewrite store_listener_closed by exact Hcl.
    auto using live_listener_closed.
  - intros name query c w Hr. rewrite (QueryName_run _ _ _ HI), Hr. simpl.
    eexists. split; [reflexivity|]. simpl.
    rewrite store_connection_closed by exact Hcl.
    auto using live_connection_closed.
  - intros identity query nid c w Ht Hr.
    rewrite (Query_target _ _ _ _ HI Ht), Hr. simpl.
    eexists. split; [reflexivity|]. simpl.
    rewrite store_connection_closed by exact Hcl.
    auto using live_connection_closed.
Qed.

(** ** Writing and reading *)

Lemma length_list_byte_of_string (data : string) :
  length (String.list_byte_of_string data) = String.length data.
Proof.
  rewrite <- length_string_of_list_byte.
  now rewrite String.string_of_list_byte_of_string.
Qed.

(** X7. [ConnWrite] on a live identifier makes one [Write] call on its
    stream, with exactly the bytes of [data], and reports that call's error.
    The count the stream returns is not looked at: a write that reports no
    error is a success.  The adapter is untouched. *)
Theorem ConnWrite_writes_the_bytes st id c data :
  Reachable st ->
  live_connection (api st) id = Some c ->
  exists st',
    ConnWrite id data st =
      Ret (UnderlyingFailure <$>
             (Conn_Write c (String.list_byte_of_string data) (world st)).1.2) st' /\
    api st' = api st /\
    drawn st' = drawn st /\
    world st' = (Conn_Write c (String.list_byte_of_string data) (world st)).2 /\
    calls st' = calls st ++ [CConnWrite c (String.list_byte_of_string data)].
Proof.
  intros Hst Hl. destruct (Reachable_Inv _ Hst) as [_ Hcm _ _ _].
  rewrite (ConnWrite_live _ _ _ _ Hcm Hl). simpl.
  eexists. split; [reflexivity|]. simpl. auto.
Qed.

(** X8. A string shorter than the buffer that is written to a peer which
    sends the same bytes back in one piece is read back unchanged: the write
    and the read return no error, the read returns the string written, and
    one [Write] and one [Read] reached the stream. *)
Theorem written_string_reads_back st id c data n w1 w2 :
  Reachable st ->
  live_connection (api st) id = Some c ->
  String.length data < buf_len ->
  Conn_Write c (String.list_byte_of_string data) (world st) = ((n, None), w1) ->
  Conn_Read c buf_len w1 = ((String.list_byte_of_string data, None), w2) ->
  forall fuel,
    exists st',
      (e <- ConnWrite id data ;; r <- ConnRead (S fuel) id ;; ret (e, r)) st =
        Ret (None, (data, None)) st' /\
      api st' = api st /\
      calls st' =
        calls st ++ [CConnWrite c (String.list_byte_of_string data); CConnRead c].
Proof.
  intros Hst Hl Hlen Hw Hr fuel.
  destruct (Reachable_Inv _ Hst) as [_ Hcm _ _ _].
  unfold bind at 1. rewrite (ConnWrite_live _ _ _ _ Hcm Hl). simpl. rewrite Hw. simpl.
  unfold bind at 1. rewrite ConnRead_live with (c := c) by (simpl; assumption).
  rewrite ConnRead_loop_short with (p := String.list_byte_of_string data) (w := w2);
    [| exact Hr | now rewrite length_list_byte_of_string].
  simpl. rewrite String.string_of_list_byte_of_string.
  eexists. split; [reflexivity|]. simpl.
  split; [reflexivity|]. now rewrite <- app_assoc.
Qed.

(** What the loop has done when it returns. *)
Lemma ConnRead_loop_returned fuel : forall c arr st data err st',
  ConnRead_loop fuel c arr st = Ret (data, err) st' ->
  exists k,
    k < fuel /\
    Forall fills_buffer (reads k c (world st)).1 /\
    st' = called (CConnRead c)
            (Conn_Read c buf_len (world (after_reads k c st))).2 (after_reads k c st) /\
    match (Conn_Read c buf_len (world (after_reads k c st))).1.2 with
    | Some e =>
        err = Some (UnderlyingFailure e) /\
        data = String.string_of_list_byte (arr ++ concat (reads k c (world st)).1.*1)
    | None =>
        err = None /\
        length (Conn_Read c buf_len (world (after_reads k c st))).1.1 < buf_len /\
        data = String.string_of_list_byte
                 (arr ++ concat (reads k c (world st)).1.*1
                      ++ (Conn_Read c buf_len (world (after_reads k c st))).1.1)
    end.
Proof.
  induction fuel as [|fuel IH]; intros c arr st data err st' H; [discriminate|].
  destruct (Conn_Read c buf_len (world st)) as [[p [e|]] w] eqn:Hr.
  - rewrite (ConnRead_loop_error _ _ _ _ _ _ _ Hr) in H. inversion H; subst.
    exists 0. rewrite after_reads_0, Hr. simpl. rewrite app_nil_r.
    repeat split; [lia | constructor].
  - destruct (Nat.lt_trichotomy (length p) buf_len) as [Hlt | [Heq | Hgt]].
    + rewrite (ConnRead_loop_short _ _ _ _ _ _ Hr Hlt) in H. inversion H; subst.
      exists 0. rewrite after_reads_0, Hr. simpl.
      repeat split; [lia | constructor | exact Hlt].
    + rewrite (ConnRead_loop_full _ _ _ _ _ _ Hr Heq) in H.
      apply IH in H as (k & Hk & Hfull & Hst' & Hres).
      exists (S k). rewrite reads_S, after_reads_S, Hr. simpl in *.
      split; [lia|]. split; [constructor; [now split | exact Hfull]|].
      split; [exact Hst'|].
      destruct (Conn_Read c buf_len (reads k c w).2).1.2;
        rewrite <- ?app_assoc in Hres; rewrite <- ?app_assoc; exact Hres.
    + rewrite (ConnRead_loop_overrun _ _ _ _ _ _ Hr Hgt) in H. discriminate.
Qed.

(** X9. Whenever [ConnRead] returns on a live identifier, it made [k + 1]
    reads on the stream for some [k]: the first [k] filled the buffer without
    error and the last one did not.  If the last read reported an error, that
    error is returned with the bytes of the [k] full reads, so the data is a
    whole number of buffers long; otherwise the last read fell short of the
    buffer and the data is the bytes of all [k + 1] reads, with no error.
    Nothing but those reads happened: the adapter and the uuid count are
    as before. *)
Theorem ConnRead_returns_only_after_short_or_failed_read st id c fuel data err st' :
  Reachable st ->
  live_connection (api st) id = Some c ->
  ConnRead fuel id st = Ret (data, err) st' ->
  exists k,
    k < fuel /\
    Forall fills_buffer (reads k c (world st)).1 /\
    st' = called (CConnRead c)
            (Conn_Read c buf_len (world (after_reads k c st))).2 (after_reads k c st) /\
    api st' = api st /\
    drawn st' = drawn st /\
    calls st' = calls st ++ replicate (S k) (CConnRead c) /\
    match (Conn_Read c buf_len (world (after_reads k c st))).1.2 with
    | Some e =>
        err = Some (UnderlyingFailure e) /\
        data = String.string_of_list_byte (concat (reads k c (world st)).1.*1) /\
        String.length data = k * buf_len
    | None =>
        err = None /\
        length (Conn_Read c buf_len (world (after_reads k c st))).1.1 < buf_len /\
        data = String.string_of_list_byte
                 (concat (reads k c (world st)).1.*1
                    ++ (Conn_Read c buf_len (world (after_reads k c st))).1.1)
    end.
Proof.
  intros Hst Hl H. destruct (Reachable_Inv _ Hst) as [_ Hcm _ _ _].
  rewrite (ConnRead_live _ _ _ _ Hcm Hl) in H.
  apply ConnRead_loop_returned in H as (k & Hk & Hfull & Hst' & Hres).
  exists k. split; [exact Hk|]. split; [exact Hfull|]. split; [exact Hst'|].
  split; [now rewrite Hst'|]. split; [now rewrite Hst'|].
  split.
  - rewrite Hst', replicate_S_end. unfold called, after_reads. cbn [calls].
    now rewrite app_assoc.
  - destruct (Conn_Read c buf_len (world (after_reads k c st))).1.2; simpl in Hres.
    + destruct Hres as [-> ->]. split; [reflexivity|]. split; [reflexivity|].
      rewrite length_string_of_list_byte, length_concat_full by assumption.
      now rewrite length_reads.
    + exact Hres.
Qed.

(** ** Lookups in the stack *)

(** X10. [Resolve] and [NodeInfo] do not depend on the adapter and do not
    touch it: whatever adapter stands in front of the same world (open, shut
    down, with a lock held), they return the same result; they always return,
    and they leave the adapter and the uuid count as they found them. *)
Theorem lookups_ignore_the_adapter st name identity :
  (forall a,
     returned (Resolve name (set_api a st)) = returned (Resolve name st) /\
     returned (api_NodeInfo identity (set_api a st)) =
       returned (api_NodeInfo identity st)) /\
  (exists r st',
     Resolve name st = Ret r st' /\ api st' = api st /\ drawn st' = drawn st) /\
  (exists r st',
     api_NodeInfo identity st = Ret r st' /\ api st' = api st /\ drawn st' = drawn st).
Proof.
  split; [|split].
  - intros a. unfold Resolve, api_NodeInfo, bind, ret. rewrite !call_run. simpl.
    split.
    + now destruct (astral_Resolve name (world st)) as [[i|e] w].
    + destruct (ParsePublicKeyHex identity) as [nid|e]; [|reflexivity].
      rewrite !call_run. simpl.
      now destruct (astral_GetNodeInfo nid (world st)) as [[i|e] w].
  - unfold Resolve, bind, ret. rewrite call_run.
    destruct (astral_Resolve name (world st)) as [[i|e] w]; simpl; eauto.
  - unfold api_NodeInfo, bind, ret.
    destruct (ParsePublicKeyHex identity) as [nid|e]; [|eauto].
    rewrite call_run.
    destruct (astral_GetNodeInfo nid (world st)) as [[i|e] w]; simpl; eauto.
Qed.

(** X11. [Resolve] asks the stack once and returns the string form of the
    identity it reports, or its error with an empty string.  [NodeInfo]
    parses every identity it is given, the empty one included (which has no
    meaning of its own here, unlike in [Query]): one that does not parse comes
    back as the parse error with an empty record, before any call to the
    stack; one that parses is looked up with one call, and the record
    returned carries the string form of the identity and the name the stack
    reported, or is empty beside the stack's error. *)
Theorem stack_lookups_return_what_the_stack_reports st name identity :
  (exists st',
     Resolve name st =
       Ret (match (astral_Resolve name (world st)).1 with
            | inl i => (Identity_String i, None)
            | inr e => ("", Some (UnderlyingFailure e))
            end) st' /\
     calls st' = calls st ++ [CResolve name] /\
     world st' = (astral_Resolve name (world st)).2) /\
  match ParsePublicKeyHex identity with
  | inr e =>
      api_NodeInfo identity st =
        Ret ({| NodeInfo_Identity := ""; NodeInfo_Name := "" |},
             Some (MalformedInput e)) st
  | inl nid =>
      exists st',
        api_NodeInfo identity st =
          Ret (match (astral_GetNodeInfo nid (world st)).1 with
               | inl i =>
                   ({| NodeInfo_Identity := Identity_String i.1; NodeInfo_Name := i.2 |},
                    None)
               | inr e =>
                   ({| NodeInfo_Identity := ""; NodeInfo_Name := "" |},
                    Some (UnderlyingFailure e))
               end) st' /\
        calls st' = calls st ++ [CGetNodeInfo nid] /\
        world st' = (astral_GetNodeInfo nid (world st)).2
  end.
Proof.
  split.
  - unfold Resolve, bind, ret. rewrite call_run.
    destruct (astral_Resolve name (world st)) as [[i|e] w]; simpl; eauto.
  - unfold api_NodeInfo, bind, ret.
    destruct (ParsePublicKeyHex identity) as [nid|e]; [|reflexivity].
    rewrite call_run.
    destruct (astral_GetNodeInfo nid (world st)) as [[i|e] w]; simpl; eauto.
Qed.

(** ** What every reachable state satisfies *)

(** X12. Between two operations neither mutex is held (every operation
    releases what it locked, on every path), both maps are allocated as long
    as the adapter is not shut down, and both are nil once it is. *)
Theorem reachable_adapter_is_well_formed st :
  Reachable st ->
  listenersMutex (api st) = RWMutex_zero /\
  connectionsMutex (api st) = RWMutex_zero /\
  (closed (api st) = false ->
   is_Some (listeners (api st)) /\ is_Some (connections (api st))) /\
  (closed (api st) = true ->
   listeners (api st) = None /\ connections (api st) = None).
Proof.
  intros Hst. destruct (Reachable_Inv _ Hst) as [Hlm Hcm Hls Hcs Hsd].
  split; [exact Hlm|]. split; [exact Hcm|]. split; [|exact Hsd].
  intros Hcl. split; [exact (Hls Hcl) | exact (Hcs Hcl)].
Qed.

Lemma ConnRead_loop_no_panic fuel :
  reads_within_buffer ->
  forall c arr st msg, ConnRead_loop fuel c arr st <> Panic msg.
Proof.
  intros Hbound. induction fuel as [|fuel IH]; intros c arr st msg; [discriminate|].
  simpl. unfold bind. rewrite call_run.
  pose proof (Hbound c (world st)) as Hlen.
  destruct (Conn_Read c buf_len (world st)) as [[p [e|]] w]; simpl in *; [discriminate|].
  destruct (Nat.ltb_spec buf_len (length p)); [lia|].
  destruct (length p <? buf_len)%nat; [discriminate | apply IH].
Qed.

(** X13. From a reachable state no public operation panics and none waits
    for a lock, provided the streams keep [io.Reader]'s bound on the count:
    every operation returns, except that [ConnRead] may go on reading. *)
Theorem operations_never_fault st :
  Reachable st ->
  reads_within_buffer ->
  forall fuel op, ends_well op (exec fuel op st).
Proof.
  intros Hst Hbound fuel op. pose proof (Reachable_Inv _ Hst) as HI.
  pose proof HI as [Hlm Hcm _ _ _].
  destruct op; unfold exec, bind, ret.
  - rewrite ServiceRegister_run by assumption. simpl.
    now destruct (astral_Register service (world st)) as [[l|e] w].
  - destruct (live_listener (api st) service) as [l|] eqn:Hl.
    + destruct (Listener_Close l (world st)) as [[e|] w] eqn:Hc.
      * now rewrite (ServiceClose_close_err _ _ _ _ _ Hlm Hl Hc).
      * now rewrite (ServiceClose_close_ok _ _ _ _ Hlm Hl Hc).
    + now rewrite (ServiceClose_missing _ _ Hlm Hl).
  - destruct (live_listener (api st) service) as [l|] eqn:Hl.
    + rewrite (ConnAccept_live _ _ _ HI Hl). simpl.
      now destruct (Listener_Accept l (world st)) as [[c|e] w].
    + now rewrite (ConnAccept_missing _ _ Hlm Hl).
  - destruct (live_connection (api st) id) as [c|] eqn:Hl.
    + destruct (Conn_Close c (world st)) as [[e|] w] eqn:Hc.
      * now rewrite (ConnClose_close_err _ _ _ _ _ Hcm Hl Hc).
      * now rewrite (ConnClose_close_ok _ _ _ _ Hcm Hl Hc).
    + now rewrite (ConnClose_missing _ _ Hcm Hl).
  - destruct (live_connection (api st) id) as [c|] eqn:Hl.
    + now rewrite (ConnWrite_live _ _ _ _ Hcm Hl).
    + now rewrite (ConnWrite_missing _ _ _ Hcm Hl).
  - destruct (live_connection (api st) id) as [c|] eqn:Hl.
    + rewrite (ConnRead_live _ _ _ _ Hcm Hl).
      destruct (ConnRead_loop fuel c [] st) as [r st'|msg| |] eqn:Hloop; simpl.
      * exact I.
      * now apply ConnRead_loop_no_panic in Hloop.
      * now apply ConnRead_loop_no_block in Hloop.
      * now exists id.
    + now rewrite (ConnRead_missing _ _ _ Hcm Hl).
  - destruct (target_identity identity) as [nid|e] eqn:Ht.
    + rewrite (Query_target _ _ _ _ HI Ht). simpl.
      now destruct (astral_Query nid query (world st)) as [[c|e] w].
    + unfold Query. fold (target_identity identity). now rewrite Ht.
  - rewrite QueryName_run by assumption. simpl.
    now destruct (astral_QueryName name query (world st)) as [[c|e] w].
  - unfold Resolve, bind, ret. rewrite call_run.
    now destruct (astral_Resolve name (world st)) as [[i|e] w].
  - unfold api_NodeInfo, bind, ret.
    destruct (ParsePublicKeyHex identity) as [nid|e]; [|exact I].
    rewrite call_run.
    now destruct (astral_GetNodeInfo nid (world st)) as [[i|e] w].
  - now rewrite CloseAppHostFlatAdapter_run.
Qed.

(** ** Closing twice *)

(** X14. Shutting down an adapter that is already shut down does nothing at
    all: no [Close] is called a second time and the state is as before. *)
Theorem shutdown_twice_changes_nothing st :
  Reachable st ->
  closed (api st) = true ->
  CloseAppHostFlatAdapter st = Ret tt st.
Proof.
  intros Hst Hcl. pose proof (Reachable_Inv _ Hst) as HI.
  pose proof HI as [Hlm Hcm _ _ _].
  rewrite (CloseAppHostFlatAdapter_run _ Hlm Hcm). f_equal.
  pose proof (Inv_closed _ HI Hcl) as Hsd.
  unfold after_shutdown, swept_conns, swept_listeners. rewrite Hsd. simpl.
  destruct st as [a w n cs]. simpl in *. subst a. now rewrite app_nil_r.
Qed.

(** X15. A service whose listener closed without error is still registered,
    so closing the service again calls [Close] on the same listener a second
    time and reports what that second call returns. *)
Theorem ServiceClose_twice_closes_the_listener_twice st service l w :
  Reachable st ->
  live_listener (api st) service = Some l ->
  Listener_Close l (world st) = (None, w) ->
  exists st',
    (first <- ServiceClose service ;; second <- ServiceClose service ;;
     ret (first, second)) st =
      Ret (None, UnderlyingFailure <$> (Listener_Close l w).1) st' /\
    calls st' = calls st ++ [CListenerClose l; CListenerClose l].
Proof.
  intros Hst Hl Hc. destruct (Reachable_Inv _ Hst) as [Hlm _ _ _ _].
  unfold bind at 1. rewrite (ServiceClose_close_ok _ _ _ _ Hlm Hl Hc).
  unfold bind at 1.
  destruct (Listener_Close l w) as [[e|] w'] eqn:Hc2.
  - rewrite ServiceClose_close_err with (l := l) (e := e) (w := w') by assumption.
    eexists. split; [reflexivity|]. simpl. now rewrite <- app_assoc.
  - rewrite ServiceClose_close_ok with (l := l) (w := w') by assumption.
    eexists. split; [reflexivity|]. simpl. now rewrite <- app_assoc.
Qed.

(** ** The guarded maps *)

(** X16. On an adapter that is not shut down, [setListener] with a listener
    makes [getListener] find it under that name, [setListener] with nil makes
    [getListener] find nothing there, and in both cases every other name is
    looked up as before and the connections are untouched. *)
Theorem setListener_then_getListener st service l :
  Reachable st ->
  closed (api st) = false ->
  (exists st',
     setListener service (Some l) st = Ret tt st' /\
     getListener service st' = Ret (Some l) st' /\
     connections (api st') = connections (api st) /\
     forall other, other <> service ->
       getListener other st' = Ret (live_listener (api st) other) st') /\
  (exists st',
     setListener service None st = Ret tt st' /\
     getListener service st' = Ret None st' /\
     connections (api st') = connections (api st) /\
     forall other, other <> service ->
       getListener other st' = Ret (live_listener (api st) other) st').
Proof.
  intros Hst Hcl. pose proof (Reachable_Inv _ Hst) as HI.
  pose proof HI as [Hlm Hcm Hls _ _].
  destruct (Hls Hcl) as [m Hm].
  split.
  - rewrite setListener_run by assumption. unfold setListener_result.
    rewrite Hcl, Hm. eexists. split; [reflexivity|].
    split; [|split; [reflexivity|]].
    + rewrite getListener_run by (simpl; assumption). unfold live_listener. simpl.
      now rewrite Hcl, lookup_insert_eq.
    + intros other Hne. rewrite getListener_run by (simpl; assumption).
      unfold live_listener. simpl. rewrite Hcl, Hm. simpl.
      now rewrite lookup_insert_ne.
  - rewrite setListener_run by assumption. unfold setListener_result.
    rewrite Hcl, Hm. eexists. split; [reflexivity|].
    split; [|split; [reflexivity|]].
    + rewrite getListener_run by (simpl; assumption). unfold live_listener. simpl.
      now rewrite Hcl, lookup_delete_eq.
    + intros other Hne. rewrite getListener_run by (simpl; assumption).
      unfold live_listener. simpl. rewrite Hcl, Hm. simpl.
      now rewrite lookup_delete_ne.
Qed.

(** X17. On an adapter that is not shut down, [setConnection] with a stream
    makes [getConnection] find it under that identifier, [setConnection] with
    nil makes [getConnection] find nothing there, and in both cases every
    other identifier is looked up as before and the listeners are
    untouched. *)
Theorem setConnection_then_getConnection st id c :
  Reachable st ->
  closed (api st) = false ->
  (exists st',
     setConnection id (Some c) st = Ret tt st' /\
     getConnection id st' = Ret (Some c) st' /\
     listeners (api st') = listeners (api st) /\
     forall other, other <> id ->
       getConnection other st' = Ret (live_connection (api st) other) st') /\
  (exists st',
     setConnection id None st = Ret tt st' /\
     getConnection id st' = Ret None st' /\
     listeners (api st') = listeners (api st) /\
     forall other, other <> id ->
       getConnection other st' = Ret (live_connection (api st) other) st').
Proof.
  intros Hst Hcl. pose proof (Reachable_Inv _ Hst) as HI.
  pose proof HI as [Hlm Hcm _ Hcs _].
  destruct (Hcs Hcl) as [m Hm].
  split.
  - rewrite setConnection_run by assumption. unfold setConnection_result.
    rewrite Hcl, Hm. eexists. split; [reflexivity|].
    split; [|split; [reflexivity|]].
    + rewrite getConnection_run by (simpl; assumption). unfold live_connection. simpl.
      now rewrite Hcl, lookup_insert_eq.
    + intros other Hne. rewrite getConnection_run by (simpl; assumption).
      unfold live_connection. simpl. rewrite Hcl, Hm. simpl.
      now rewrite lookup_insert_ne.
  - rewrite setConnection_run by assumption. unfold setConnection_result.
    rewrite Hcl, Hm. eexists. split; [reflexivity|].
    split; [|split; [reflexivity|]].
    + rewrite getConnection_run by (simpl; assumption). unfold live_connection. simpl.
      now rewrite Hcl, lookup_delete_eq.
    + intros other Hne. rewrite getConnection_run by (simpl; assumption).
      unfold live_connection. simpl. rewrite Hcl, Hm. simpl.
      now rewrite lookup_delete_ne.
Qed.

(** ** What one operation can do to the adapter *)

Ltac pick_effect H :=
  inversion H; subst; clear H; simpl; solve [auto 12 | eauto 12].

(** The adapter after an operation is the one before, or differs from it by
    one stored listener, one deleted service, one stream stored under the
    uuid just drawn, one deleted connection, or the shutdown. *)
Lemma exec_effect fuel op st r st' :
  Inv (api st) ->
  exec fuel op st = Ret r st' ->
  api st' = api st \/
  (exists service l,
     op = OServiceRegister service /\
     api st' = store_listener service l (api st)) \/
  (exists service,
     op = OServiceClose service /\
     api st' = with_listeners (map_delete (listeners (api st)) service) (api st)) \/
  (exists c,
     issued op r = Some (uuid_tape (drawn st)) /\
     api st' = store_connection (uuid_tape (drawn st)) c (api st)) \/
  (exists id,
     op = OConnClose id /\
     api st' = with_connections (map_delete (connections (api st)) id) (api st)) \/
  (op = OShutdown /\ api st' = shut_down).
Proof.
  intros HI H. pose proof HI as [Hlm Hcm Hls Hcs Hsd].
  destruct op; unfold exec, bind, ret in H.
  - rewrite ServiceRegister_run in H by assumption. simpl in H.
    destruct (astral_Register service (world st)) as [[l|e] w]; simpl in H;
      pick_effect H.
  - destruct (live_listener (api st) service) as [l|] eqn:Hl.
    + destruct (Listener_Close l (world st)) as [[e|] w] eqn:Hc.
      * rewrite (ServiceClose_close_err _ _ _ _ _ Hlm Hl Hc) in H. pick_effect H.
      * rewrite (ServiceClose_close_ok _ _ _ _ Hlm Hl Hc) in H. pick_effect H.
    + rewrite (ServiceClose_missing _ _ Hlm Hl) in H. pick_effect H.
  - destruct (live_listener (api st) service) as [l|] eqn:Hl.
    + rewrite (ConnAccept_live _ _ _ HI Hl) in H. simpl in H.
      destruct (Listener_Accept l (world st)) as [[c|e] w]; simpl in H; pick_effect H.
    + rewrite (ConnAccept_missing _ _ Hlm Hl) in H. pick_effect H.
  - destruct (live_connection (api st) id) as [c|] eqn:Hl.
    + destruct (Conn_Close c (world st)) as [[e|] w] eqn:Hc.
      * rewrite (ConnClose_close_err _ _ _ _ _ Hcm Hl Hc) in H. pick_effect H.
      * rewrite (ConnClose_close_ok _ _ _ _ Hcm Hl Hc) in H. pick_effect H.
    + rewrite (ConnClose_missing _ _ Hcm Hl) in H. pick_effect H.
  - destruct (live_connection (api st) id) as [c|] eqn:Hl.
    + rewrite (ConnWrite_live _ _ _ _ Hcm Hl) in H. pick_effect H.
    + rewrite (ConnWrite_missing _ _ _ Hcm Hl) in H. pick_effect H.
  - destruct (live_connection (api st) id) as [c|] eqn:Hl.
    + rewrite (ConnRead_live _ _ _ _ Hcm Hl) in H.
      destruct (ConnRead_loop fuel c [] st) as [[d e] st1| | |] eqn:Hloop;
        try discriminate.
      apply ConnRead_loop_frame in Hloop as [Ha _].
      inversion H; subst; clear H. now left.
    + rewrite (ConnRead_missing _ _ _ Hcm Hl) in H. pick_effect H.
  - destruct (target_identity identity) as [nid|e] eqn:Ht.
    + rewrite (Query_target _ _ _ _ HI Ht) in H. simpl in H.
      destruct (astral_Query nid query (world st)) as [[c|e] w]; simpl in H;
        pick_effect H.
    + unfold Query in H. fold (target_identity identity) in H. rewrite Ht in H.
      pick_effect H.
  - rewrite (QueryName_run _ _ _ HI) in H. simpl in H.
    destruct (astral_QueryName name query (world st)) as [[c|e] w]; simpl in H;
      pick_effect H.
  - unfold Resolve, bind, ret in H. rewrite call_run in H.
    destruct (astral_Resolve name (world st)) as [[i|e] w]; simpl in H; pick_effect H.
  - unfold api_NodeInfo, bind, ret in H.
    destruct (ParsePublicKeyHex identity) as [nid|e]; [|pick_effect H].
    rewrite call_run in H.
    destruct (astral_GetNodeInfo nid (world st)) as [[i|e] w]; simpl in H; pick_effect H.
  - rewrite (CloseAppHostFlatAdapter_run _ Hlm Hcm) in H. pick_effect H.
Qed.

Lemma issued_Some_touches op r id :
  issued op r = Some id ->
  touches_connections op = true /\ touches_listeners op = false.
Proof. destruct op, r as [| |? [?|]|]; simpl; intros; try discriminate; auto. Qed.

Lemma live_connection_store_inv k c0 a id c :
  live_connection (store_connection k c0 a) id = Some c ->
  id = k \/ live_connection a id = Some c.
Proof.
  unfold store_connection. destruct (closed a) eqn:Hcl; [auto|].
  unfold live_connection. simpl. rewrite Hcl.
  destruct (connections a) as [m|]; simpl; [|discriminate].
  destruct (decide (k = id)) as [->|Hne]; [auto|].
  rewrite lookup_insert_ne by assumption. auto.
Qed.

Lemma live_connection_delete_inv k a id c :
  live_connection (with_connections (map_delete (connections a) k) a) id = Some c ->
  id <> k /\ live_connection a id = Some c.
Proof.
  unfold live_connection. simpl. destruct (closed a); [discriminate|].
  destruct (connections a) as [m|]; simpl; [|discriminate].
  intros Hd. apply lookup_delete_Some in Hd as [Hne Hd]. auto.
Qed.

Lemma live_connection_store_listener service l a id :
  live_connection (store_listener service l a) id = live_connection a id.
Proof.
  unfold live_connection.
  now rewrite closed_store_listener, connections_store_listener.
Qed.

(** An identifier that is live after an operation was live before it or was
    issued by it. *)
Lemma exec_live_connection fuel op st r st' id c :
  Inv (api st) ->
  exec fuel op st = Ret r st' ->
  live_connection (api st') id = Some c ->
  live_connection (api st) id = Some c \/ issued op r = Some id.
Proof.
  intros HI H Hl.
  destruct (exec_effect _ _ _ _ _ HI H)
    as [Ha | [(s & l & _ & Ha) | [(s & _ & Ha) | [(c0 & Hi & Ha) | [(k & _ & Ha) | [_ Ha]]]]]];
    rewrite Ha in Hl.
  - now left.
  - rewrite live_connection_store_listener in Hl. now left.
  - now left.
  - apply live_connection_store_inv in Hl as [-> | Hl]; auto.
  - apply live_connection_delete_inv in Hl as [_ Hl]. now left.
  - discriminate.
Qed.

Lemma issued_ids_cons op ops r rs id :
  issued op r = Some id \/ id ∈ issued_ids ops rs ->
  id ∈ issued_ids (op :: ops) (r :: rs).
Proof.
  simpl. intros [Hi | Hin].
  - rewrite Hi. left.
  - destruct (issued op r); [right|]; exact Hin.
Qed.

Lemma run_live_connection fuel ops : forall st rs st' id c,
  Inv (api st) ->
  run fuel ops st = Ret rs st' ->
  live_connection (api st') id = Some c ->
  live_connection (api st) id = Some c \/ id ∈ issued_ids ops rs.
Proof.
  induction ops as [|op ops IH]; intros st rs st' id c HI H Hl; simpl in H.
  - inversion H; subst. now left.
  - unfold bind in H.
    destruct (exec fuel op st) as [r st1| | |] eqn:Hexec; try discriminate.
    destruct (run fuel ops st1) as [rs1 st2| | |] eqn:Hrun; try discriminate.
    inversion H; subst.
    destruct (exec_step _ _ _ _ _ HI Hexec) as (HI1 & _ & _).
    destruct (IH _ _ _ _ _ HI1 Hrun Hl) as [Hl1 | Hin].
    + destruct (exec_live_connection _ _ _ _ _ _ _ HI Hexec Hl1) as [Hl0 | Hi].
      * now left.
      * right. apply issued_ids_cons. now left.
    + right. apply issued_ids_cons. now right.
Qed.

(** ** Identifiers and entries over the adapter's lifetime *)

(** X18. Whatever the host did since the adapter was created, every
    connection identifier that has a live entry was returned to it by an
    accept or a query of that run which succeeded: the host cannot make up
    an identifier that the registry knows. *)
Theorem live_identifiers_were_issued fuel ops w n rs st id c :
  run fuel ops (initial w n) = Ret rs st ->
  live_connection (api st) id = Some c ->
  id ∈ issued_ids ops rs.
Proof.
  intros Hrun Hl.
  destruct (run_live_connection fuel ops (initial w n) rs st id c Inv_New Hrun Hl)
    as [Hinit | Hin]; [discriminate | exact Hin].
Qed.

Lemma exec_keys_were_drawn fuel op st r st' n :
  Inv (api st) ->
  exec fuel op st = Ret r st' ->
  n <= drawn st ->
  keys_were_drawn n st ->
  n <= drawn st' /\ keys_were_drawn n st'.
Proof.
  intros HI H Hn Hkeys.
  destruct (exec_step _ _ _ _ _ HI H) as (_ & _ & Hid).
  assert (Hmono : drawn st <= drawn st').
  { destruct (issued op r); [destruct Hid as [_ ->] | rewrite Hid]; lia. }
  split; [lia|].
  intros id c Hl.
  destruct (exec_live_connection _ _ _ _ _ _ _ HI H Hl) as [Hl0 | Hi].
  - destruct (Hkeys _ _ Hl0) as (i & Hi & ->). exists i. split; [lia | reflexivity].
  - rewrite Hi in Hid. destruct Hid as [-> Hd]. exists (drawn st). split; [lia | reflexivity].
Qed.

Lemma run_keys_were_drawn fuel ops n : forall st rs st',
  Inv (api st) ->
  run fuel ops st = Ret rs st' ->
  n <= drawn st ->
  keys_were_drawn n st ->
  n <= drawn st' /\ keys_were_drawn n st'.
Proof.
  induction ops as [|op ops IH]; intros st rs st' HI H Hn Hkeys; simpl in H.
  - inversion H; subst. auto.
  - unfold bind in H.
    destruct (exec fuel op st) as [r st1| | |] eqn:Hexec; try discriminate.
    destruct (run fuel ops st1) as [rs1 st2| | |] eqn:Hrun; try discriminate.
    inversion H; subst.
    destruct (exec_step _ _ _ _ _ HI Hexec) as (HI1 & _ & _).
    destruct (exec_keys_were_drawn _ _ _ _ _ _ HI Hexec Hn Hkeys) as [Hn1 Hkeys1].
    eapply IH; eassumption.
Qed.

Lemma keys_were_drawn_initial w n : keys_were_drawn n (initial w n).
Proof. intros id c Hl. discriminate. Qed.

Lemma next_uuid_not_live n st :
  keys_were_drawn n st -> live_connection (api st) (uuid_tape (drawn st)) = None.
Proof.
  intros Hkeys.
  destruct (live_connection (api st) (uuid_tape (drawn st))) as [c|] eqn:Hl;
    [|reflexivity].
  destruct (Hkeys _ _ Hl) as (i & Hi & Heq).
  apply uuid_unique in Heq. lia.
Qed.

(** X19. Whatever the host did since the adapter was created, the live
    connection identifiers are among the uuids drawn so far, and the uuid
    that the next accept or query will use has no entry: storing a new
    stream never replaces a stream that is still registered. *)
Theorem next_identifier_has_no_entry fuel ops w n rs st :
  run fuel ops (initial w n) = Ret rs st ->
  keys_were_drawn n st /\
  live_connection (api st) (uuid_tape (drawn st)) = None.
Proof.
  intros Hrun.
  destruct (run_keys_were_drawn fuel ops n (initial w n) rs st Inv_New Hrun
              (Nat.le_refl _) (keys_were_drawn_initial w n)) as [_ Hkeys].
  split; [exact Hkeys | now apply next_uuid_not_live with (n := n)].
Qed.

(** X20. A connection identifier that is live stays live, on the same
    stream, through every operation other than a [ConnClose] of that very
    identifier and the shutdown: no accept, query, write, read or close of
    something else takes it away or rebinds it. *)
Theorem live_entry_outlasts_other_operations fuel ops w n rs st fuel' op r st' id c :
  run fuel ops (initial w n) = Ret rs st ->
  exec fuel' op st = Ret r st' ->
  live_connection (api st) id = Some c ->
  op <> OConnClose id ->
  op <> OShutdown ->
  live_connection (api st') id = Some c.
Proof.
  intros Hrun Hexec Hl Hnc Hns.
  pose proof (Reachable_Inv _ (run_Reachable _ _ _ _ _ (Reachable_initial w n) Hrun)) as HI.
  assert (Hkeys : keys_were_drawn n st).
  { exact (proj2 (run_keys_were_drawn fuel ops n (initial w n) rs st Inv_New Hrun
                    (Nat.le_refl _) (keys_were_drawn_initial w n))). }
  pose proof (next_uuid_not_live n st Hkeys) as Hnext.
  destruct (live_connection_Some _ _ _ Hl) as [Hcl _].
  destruct (exec_effect _ _ _ _ _ HI Hexec)
    as [Ha | [(s & l & _ & Ha) | [(s & _ & Ha) | [(c0 & _ & Ha) | [(k & Hop & Ha) | [Hop _]]]]]];
    try rewrite Ha.
  - exact Hl.
  - now rewrite live_connection_store_listener.
  - exact Hl.
  - destruct (live_connection_stored (uuid_tape (drawn st)) c0 (api st) Hcl
                (Inv_connections _ HI Hcl)) as [_ Hother].
    rewrite Hother; [exact Hl|].
    intros ->. rewrite Hnext in Hl. discriminate.
  - assert (Hne : id <> k) by (intros ->; now apply Hnc).
    unfold live_connection in *. simpl. rewrite Hcl in *.
    destruct (connections (api st)) as [m|]; simpl in *; [|discriminate].
    now rewrite lookup_delete_ne.
  - contradiction.
Qed.

(** X21. The two registries and the flag change only where the source says
    so.  An operation that does not go through [setListener] leaves the
    listener map as it is, one that does not go through [setConnection]
    leaves the connection map as it is, and only the shutdown changes the
    flag. *)
Theorem registries_change_only_through_their_setters fuel op st r st' :
  Reachable st ->
  exec fuel op st = Ret r st' ->
  (touches_listeners op = false -> listeners (api st') = listeners (api st)) /\
  (touches_connections op = false -> connections (api st') = connections (api st)) /\
  (op <> OShutdown -> closed (api st') = closed (api st)).
Proof.
  intros Hst Hexec. pose proof (Reachable_Inv _ Hst) as HI.
  destruct (exec_effect _ _ _ _ _ HI Hexec)
    as [Ha | [(s & l & Hop & Ha) | [(s & Hop & Ha) | [(c0 & Hi & Ha) | [(k & Hop & Ha) | [Hop Ha]]]]]];
    rewrite Ha; try subst op; simpl.
  - auto.
  - rewrite connections_store_listener, closed_store_listener.
    repeat split; auto; discriminate.
  - repeat split; auto; discriminate.
  - apply issued_Some_touches in Hi as [Htc Htl].
    rewrite listeners_store_connection, closed_store_connection, Htc.
    repeat split; auto; discriminate.
  - repeat split; auto; discriminate.
  - repeat split; try discriminate. congruence.
Qed.

(** ** Retrying and repeating *)

(** X22. A [ConnClose] whose stream failed to close can be retried: the
    second [ConnClose] finds the entry, calls [Close] on the same stream
    again and reports what that call returns; the entry is removed if and
    only if this second close reported no error. *)
Theorem ConnClose_can_be_retried st id c e w :
  Reachable st ->
  live_connection (api st) id = Some c ->
  Conn_Close c (world st) = (Some e, w) ->
  exists st',
    (first <- ConnClose id ;; second <- ConnClose id ;; ret (first, second)) st =
      Ret (Some (UnderlyingFailure e), UnderlyingFailure <$> (Conn_Close c w).1) st' /\
    calls st' = calls st ++ [CConnClose c; CConnClose c] /\
    live_connection (api st') id =
      match (Conn_Close c w).1 with
      | None => None
      | Some _ => Some c
      end.
Proof.
  intros Hst Hl Hc. destruct (Reachable_Inv _ Hst) as [_ Hcm _ _ _].
  unfold bind at 1. rewrite (ConnClose_close_err _ _ _ _ _ Hcm Hl Hc).
  unfold bind at 1.
  destruct (Conn_Close c w) as [[e2|] w'] eqn:Hc2.
  - rewrite ConnClose_close_err with (c := c) (e := e2) (w := w') by assumption.
    eexists. split; [reflexivity|]. simpl.
    split; [now rewrite <- app_assoc | exact Hl].
  - rewrite ConnClose_close_ok with (c := c) (w := w') by assumption.
    eexists. split; [reflexivity|]. simpl.
    split; [now rewrite <- app_assoc | apply live_connection_deleted].
Qed.

(** X23. Two accepts in a row on the same service that each yield a stream
    return two different identifiers, and afterwards each identifier has its
    own entry: the first names the first stream, the second the second. *)
Theorem two_accepts_make_two_entries st service l c1 w1 c2 w2 :
  Reachable st ->
  live_listener (api st) service = Some l ->
  Listener_Accept l (world st) = (inl c1, w1) ->
  Listener_Accept l w1 = (inl c2, w2) ->
  exists id1 id2 st',
    (first <- ConnAccept service ;; second <- ConnAccept service ;;
     ret (first, second)) st = Ret ((id1, None), (id2, None)) st' /\
    id1 <> id2 /\
    live_connection (api st') id1 = Some c1 /\
    live_connection (api st') id2 = Some c2.
Proof.
  intros Hst Hl Ha1 Ha2. pose proof (Reachable_Inv _ Hst) as HI.
  destruct (live_listener_Some _ _ _ Hl) as [Hcl _].
  pose proof (Inv_store_connection (uuid_tape (drawn st)) c1 _ HI) as HI1.
  assert (Hcl1 : closed (store_connection (uuid_tape (drawn st)) c1 (api st)) = false)
    by now rewrite closed_store_connection.
  assert (Hne : uuid_tape (drawn st) <> uuid_tape (S (drawn st))).
  { intros Heq. apply uuid_unique in Heq. lia. }
  exists (uuid_tape (drawn st)), (uuid_tape (S (drawn st))).
  unfold bind at 1. rewrite (ConnAccept_live _ _ _ HI Hl), Ha1. simpl.
  unfold bind at 1. rewrite ConnAccept_live with (l := l); simpl.
  - rewrite Ha2. simpl. eexists. split; [reflexivity|]. simpl.
    split; [exact Hne|].
    destruct (live_connection_stored (uuid_tape (S (drawn st))) c2 _ Hcl1
                (Inv_connections _ HI1 Hcl1)) as [Hnew Hother].
    split; [|exact Hnew].
    rewrite Hother by exact Hne.
    apply live_connection_stored; [exact Hcl | exact (Inv_connections _ HI Hcl)].
  - exact HI1.
  - unfold live_listener.
    now rewrite closed_store_connection, listeners_store_connection.
Qed.

End Coverage.

(** ** The further properties, replayed *)

Lemma exec_returns `{Env : Environment} fuel op st :
  returns (exec fuel op st) = true ->
  exec fuel op st =
    Ret (default RUnit (head (results fuel [op] st))) (state_after fuel [op] st).
Proof.
  unfold results, state_after. simpl. unfold bind, ret.
  destruct (exec fuel op st); simpl; [reflexivity | discriminate ..].
Qed.

Lemma Scripted_reads_within_buffer : reads_within_buffer (Env := Scripted.env).
Proof.
  intros c w. simpl. unfold Scripted.read_reply.
  destruct w as [|[] w']; simpl; rewrite ?length_take; unfold buf_len; lia.
Qed.

Lemma listening_Reachable : Reachable Scenarios.listening.
Proof.
  apply state_after_Reachable; [apply Reachable_initial | vm_compute; reflexivity].
Qed.

Lemma closing_twice_Reachable : Reachable Scenarios.closing_twice.
Proof.
  apply state_after_Reachable; [apply Reachable_initial | vm_compute; reflexivity].
Qed.

Lemma one_open_Reachable : Reachable Scenarios.one_open.
Proof.
  apply state_after_Reachable; [apply Reachable_initial | vm_compute; reflexivity].
Qed.

Lemma echoing_Reachable : Reachable Scenarios.echoing.
Proof.
  apply state_after_Reachable; [apply Reachable_initial | vm_compute; reflexivity].
Qed.

Lemma short_read_Reachable : Reachable Scenarios.short_read.
Proof.
  apply state_after_Reachable; [apply Reachable_initial | vm_compute; reflexivity].
Qed.

Lemma accepting_two_Reachable : Reachable Scenarios.accepting_two.
Proof.
  apply state_after_Reachable; [apply Reachable_initial | vm_compute; reflexivity].
Qed.

Lemma session_end_Reachable : Reachable Scenarios.session_end.
Proof.
  apply state_after_Reachable; [apply Reachable_initial | vm_compute; reflexivity].
Qed.

Lemma session_run :
  run 1 Scripted.session Scripted.session_start =
    Ret (results 1 Scripted.session Scripted.session_start) Scenarios.session_end.
Proof. apply run_returns. vm_compute. reflexivity. Qed.

(** X1, replayed: the first registration of "echo" is granted. *)
Lemma ServiceRegister_stores_the_listener_witness :
  Reachable Scenarios.registering /\
  closed (api Scenarios.registering) = false /\
  exists st',
    ServiceRegister "echo" Scenarios.registering = Ret None st' /\
    calls st' = calls Scenarios.registering ++ [CRegister "echo"] /\
    connections (api st') = connections (api Scenarios.registering) /\
    live_listener (api st') "echo" = Some 3%positive /\
    forall other, other <> "echo" ->
      live_listener (api st') other = live_listener (api Scenarios.registering) other.
Proof.
  split; [apply Reachable_initial|]. split; [reflexivity|].
  exact (ServiceRegister_stores_the_listener Scenarios.registering "echo"
           (Reachable_initial _ 0) eq_refl).
Defined.

(** X2, replayed: nothing is registered on a new adapter. *)
Lemma unknown_service_fails_NotFound_witness :
  Reachable Scripted.fresh /\
  live_listener (api Scripted.fresh) "echo" = None /\
  ServiceClose "echo" Scripted.fresh =
    Ret (Some (NotFound "[ServiceClose] not listening on port: echo")) Scripted.fresh /\
  ConnAccept "echo" Scripted.fresh =
    Ret ("", Some (NotFound "[ConnAccept] not listening on port: echo")) Scripted.fresh.
Proof.
  split; [apply Reachable_initial|]. split; [reflexivity|].
  exact (unknown_service_fails_NotFound Scripted.fresh "echo"
           (Reachable_initial _ 0) eq_refl).
Defined.

(** X3, replayed: an accept on "echo" yields stream 7 under "uuid-0". *)
Lemma ConnAccept_stores_the_stream_witness :
  Reachable Scenarios.listening /\
  live_listener (api Scenarios.listening) "echo" = Some 3%positive /\
  exists st',
    ConnAccept "echo" Scenarios.listening = Ret ("uuid-0", None) st' /\
    calls st' = calls Scenarios.listening ++ [CListenerAccept 3%positive] /\
    listeners (api st') = listeners (api Scenarios.listening) /\
    drawn st' = 1 /\
    live_connection (api st') "uuid-0" = Some 7%positive /\
    forall other, other <> "uuid-0" ->
      live_connection (api st') other = live_connection (api Scenarios.listening) other.
Proof.
  split; [exact listening_Reachable|]. split; [reflexivity|].
  exact (ConnAccept_stores_the_stream Scenarios.listening "echo" 3%positive
           listening_Reachable eq_refl).
Defined.



(** X6, replayed: a registration granted after the shutdown. *)
Lemma answers_are_dropped_after_shutdown_witness :
  Reachable Scripted.shut /\
  closed (api Scripted.shut) = true /\
  exists st',
    ServiceRegister "echo" Scripted.shut = Ret None st' /\
    api st' = api Scripted.shut /\
    calls st' = calls Scripted.shut ++ [CRegister "echo"] /\
    live_listener (api st') "echo" = None.
Proof.
  split; [exact shut_Reachable|]. split; [reflexivity|].
  destruct (answers_are_dropped_after_shutdown Scripted.shut shut_Reachable eq_refl)
    as (Hreg & _ & _).
  exact (Hreg "echo" 3%positive _ eq_refl).
Defined.

(** X7, replayed: writing "hi". *)
Lemma ConnWrite_writes_the_bytes_witness :
  Reachable Scenarios.echoing /\
  live_connection (api Scenarios.echoing) "uuid-0" = Some 7%positive /\
  exists st',
    ConnWrite "uuid-0" "hi" Scenarios.echoing = Ret None st' /\
    api st' = api Scenarios.echoing /\
    drawn st' = drawn Scenarios.echoing /\
    world st' = [Scripted.GivesBytes ["h"; "i"]%byte None] /\
    calls st' = calls Scenarios.echoing ++ [CConnWrite 7%positive ["h"; "i"]%byte].
Proof.
  split; [exact echoing_Reachable|]. split; [reflexivity|].
  exact (ConnWrite_writes_the_bytes Scenarios.echoing "uuid-0" 7%positive "hi"
           echoing_Reachable eq_refl).
Defined.

(** X8, replayed: "hi" is written and read back. *)
Lemma written_string_reads_back_witness :
  Reachable Scenarios.echoing /\
  live_connection (api Scenarios.echoing) "uuid-0" = Some 7%positive /\
  String.length "hi" < buf_len /\
  exists st',
    (e <- ConnWrite "uuid-0" "hi" ;; r <- ConnRead 1 "uuid-0" ;; ret (e, r))
      Scenarios.echoing = Ret (None, ("hi", None)) st' /\
    api st' = api Scenarios.echoing /\
    calls st' =
      calls Scenarios.echoing ++ [CConnWrite 7%positive ["h"; "i"]%byte;
                                  CConnRead 7%positive].
Proof.
  assert (Hlen : String.length "hi" < buf_len) by (vm_compute; lia).
  split; [exact echoing_Reachable|]. split; [reflexivity|]. split; [exact Hlen|].
  exact (written_string_reads_back Scenarios.echoing "uuid-0" 7%positive "hi" 2
           [Scripted.GivesBytes ["h"; "i"]%byte None] []
           echoing_Reachable eq_refl Hlen eq_refl eq_refl 0).
Defined.

(** X9, replayed: a read that returned after one short read. *)
Lemma ConnRead_returns_only_after_short_or_failed_read_witness :
  Reachable Scenarios.short_read /\
  live_connection (api Scenarios.short_read) "uuid-0" = Some 7%positive /\
  ConnRead 1 "uuid-0" Scenarios.short_read =
    Ret ("hi", None) (@called Scripted.env (CConnRead 7%positive) [] Scenarios.short_read) /\
  exists k,
    k < 1 /\
    Forall fills_buffer (reads k 7%positive (world Scenarios.short_read)).1 /\
    calls (@called Scripted.env (CConnRead 7%positive) [] Scenarios.short_read) =
      calls Scenarios.short_read ++ replicate (S k) (CConnRead 7%positive).
Proof.
  assert (Hrun : ConnRead 1 "uuid-0" Scenarios.short_read =
                 Ret ("hi", None) (@called Scripted.env (CConnRead 7%positive) [] Scenarios.short_read))
    by (vm_compute; reflexivity).
  split; [exact short_read_Reachable|]. split; [reflexivity|]. split; [exact Hrun|].
  destruct (ConnRead_returns_only_after_short_or_failed_read
              Scenarios.short_read "uuid-0" 7%positive 1 "hi" None _
              short_read_Reachable eq_refl Hrun)
    as (k & Hk & Hfull & _ & _ & _ & Hcalls & _).
  exists k. auto.
Defined.

(** X12, replayed on the adapter with two open streams. *)
Lemma reachable_adapter_is_well_formed_witness :
  Reachable Scripted.two_open /\
  listenersMutex (api Scripted.two_open) = RWMutex_zero /\
  connectionsMutex (api Scripted.two_open) = RWMutex_zero /\
  is_Some (listeners (api Scripted.two_open)) /\
  is_Some (connections (api Scripted.two_open)).
Proof.
  destruct (reachable_adapter_is_well_formed Scripted.two_open two_open_Reachable)
    as (Hlm & Hcm & Hopen & _).
  split; [exact two_open_Reachable|]. split; [exact Hlm|]. split; [exact Hcm|].
  exact (Hopen eq_refl).
Defined.

(** X13, replayed: with fuel for two reads [ConnRead] is still reading, with
    fuel for three it has returned; a close of an unknown service returns. *)
Lemma operations_never_fault_witness :
  Reachable Scripted.two_full_then_short /\
  reads_within_buffer (Env := Scripted.env) /\
  ends_well (OConnRead "uuid-0") (exec 2 (OConnRead "uuid-0") Scripted.two_full_then_short) /\
  ends_well (OConnRead "uuid-0") (exec 3 (OConnRead "uuid-0") Scripted.two_full_then_short) /\
  ends_well (OServiceClose "echo") (exec 1 (OServiceClose "echo") Scripted.two_full_then_short).
Proof.
  pose proof (operations_never_fault Scripted.two_full_then_short
                two_full_then_short_Reachable Scripted_reads_within_buffer) as H.
  split; [exact two_full_then_short_Reachable|].
  split; [exact Scripted_reads_within_buffer|].
  split; [apply H|]. split; apply H.
Defined.

(** X14, replayed: a second shutdown. *)
Lemma shutdown_twice_changes_nothing_witness :
  Reachable Scripted.shut /\
  closed (api Scripted.shut) = true /\
  CloseAppHostFlatAdapter Scripted.shut = Ret tt Scripted.shut.
Proof.
  split; [exact shut_Reachable|]. split; [reflexivity|].
  exact (shutdown_twice_changes_nothing Scripted.shut shut_Reachable eq_refl).
Defined.

(** X15, replayed: "echo" is closed twice, without error both times. *)
Lemma ServiceClose_twice_closes_the_listener_twice_witness :
  Reachable Scenarios.closing_twice /\
  live_listener (api Scenarios.closing_twice) "echo" = Some 3%positive /\
  exists st',
    (first <- ServiceClose "echo" ;; second <- ServiceClose "echo" ;;
     ret (first, second)) Scenarios.closing_twice = Ret (None, None) st' /\
    calls st' =
      calls Scenarios.closing_twice ++ [CListenerClose 3%positive; CListenerClose 3%positive].
Proof.
  split; [exact closing_twice_Reachable|]. split; [reflexivity|].
  exact (ServiceClose_twice_closes_the_listener_twice Scenarios.closing_twice "echo"
           3%positive [Scripted.Succeeds] closing_twice_Reachable eq_refl eq_refl).
Defined.

(** X16, replayed on a new adapter. *)
Lemma setListener_then_getListener_witness :
  Reachable Scripted.fresh /\
  closed (api Scripted.fresh) = false /\
  (exists st',
     setListener "echo" (Some 3%positive) Scripted.fresh = Ret tt st' /\
     getListener "echo" st' = Ret (Some 3%positive) st') /\
  (exists st',
     setListener "echo" None Scripted.fresh = Ret tt st' /\
     getListener "echo" st' = Ret None st').
Proof.
  destruct (setListener_then_getListener Scripted.fresh "echo" 3%positive
              (Reachable_initial _ 0) eq_refl)
    as [(st1 & Hset1 & Hget1 & _) (st2 & Hset2 & Hget2 & _)].
  split; [apply Reachable_initial|]. split; [reflexivity|].
  split; [exists st1 | exists st2]; auto.
Defined.

(** X17, replayed on a new adapter. *)
Lemma setConnection_then_getConnection_witness :
  Reachable Scripted.fresh /\
  closed (api Scripted.fresh) = false /\
  (exists st',
     setConnection "uuid-9" (Some 7%positive) Scripted.fresh = Ret tt st' /\
     getConnection "uuid-9" st' = Ret (Some 7%positive) st') /\
  (exists st',
     setConnection "uuid-9" None Scripted.fresh = Ret tt st' /\
     getConnection "uuid-9" st' = Ret None st').
Proof.
  destruct (setConnection_then_getConnection Scripted.fresh "uuid-9" 7%positive
              (Reachable_initial _ 0) eq_refl)
    as [(st1 & Hset1 & Hget1 & _) (st2 & Hset2 & Hget2 & _)].
  split; [apply Reachable_initial|]. split; [reflexivity|].
  split; [exists st1 | exists st2]; auto.
Defined.

(** X18, replayed: "uuid-1" is live at the end of the session, and it was
    issued during it. *)
Lemma live_identifiers_were_issued_witness :
  run 1 Scripted.session Scripted.session_start =
    Ret (results 1 Scripted.session Scripted.session_start) Scenarios.session_end /\
  live_connection (api Scenarios.session_end) "uuid-1" = Some 8%positive /\
  "uuid-1" ∈ issued_ids Scripted.session (results 1 Scripted.session Scripted.session_start).
Proof.
  assert (Hl : live_connection (api Scenarios.session_end) "uuid-1" = Some 8%positive)
    by (vm_compute; reflexivity).
  split; [exact session_run|]. split; [exact Hl|].
  exact (live_identifiers_were_issued 1 Scripted.session _ 0 _ _ "uuid-1" 8%positive
           session_run Hl).
Defined.

(** X19, replayed: after the session three uuids are drawn and "uuid-3", the
    next one, has no entry. *)
Lemma next_identifier_has_no_entry_witness :
  run 1 Scripted.session Scripted.session_start =
    Ret (results 1 Scripted.session Scripted.session_start) Scenarios.session_end /\
  drawn Scenarios.session_end = 3 /\
  keys_were_drawn 0 Scenarios.session_end /\
  live_connection (api Scenarios.session_end) "uuid-3" = None.
Proof.
  split; [exact session_run|]. split; [vm_compute; reflexivity|].
  exact (next_identifier_has_no_entry 1 Scripted.session _ 0 _ _ session_run).
Defined.

(** X20, replayed: "uuid-1" outlasts a write on it that fails. *)
Lemma live_entry_outlasts_other_operations_witness :
  run 1 Scripted.session Scripted.session_start =
    Ret (results 1 Scripted.session Scripted.session_start) Scenarios.session_end /\
  exec 1 (OConnWrite "uuid-1" "x") Scenarios.session_end =
    Ret (RErr (Some (UnderlyingFailure "no reply")))
        (state_after 1 [OConnWrite "uuid-1" "x"] Scenarios.session_end) /\
  live_connection (api Scenarios.session_end) "uuid-1" = Some 8%positive /\
  OConnWrite "uuid-1" "x" <> OConnClose "uuid-1" /\
  OConnWrite "uuid-1" "x" <> OShutdown /\
  live_connection (api (state_after 1 [OConnWrite "uuid-1" "x"] Scenarios.session_end))
    "uuid-1" = Some 8%positive.
Proof.
  assert (Hexec : exec 1 (OConnWrite "uuid-1" "x") Scenarios.session_end =
                  Ret (RErr (Some (UnderlyingFailure "no reply")))
                      (state_after 1 [OConnWrite "uuid-1" "x"] Scenarios.session_end)).
  { rewrite exec_returns by (vm_compute; reflexivity). f_equal. }
  assert (Hl : live_connection (api Scenarios.session_end) "uuid-1" = Some 8%positive)
    by (vm_compute; reflexivity).
  assert (Hnc : OConnWrite "uuid-1" "x" <> OConnClose "uuid-1") by discriminate.
  assert (Hns : OConnWrite "uuid-1" "x" <> OShutdown) by discriminate.
  split; [exact session_run|]. split; [exact Hexec|]. split; [exact Hl|].
  split; [exact Hnc|]. split; [exact Hns|].
  exact (live_entry_outlasts_other_operations 1 Scripted.session _ 0 _ _ 1 _ _ _
           "uuid-1" 8%positive session_run Hexec Hl Hnc Hns).
Defined.

(** X21, replayed: a query by name on the adapter with one open stream
    leaves the listeners and the flag alone. *)
Lemma registries_change_only_through_their_setters_witness :
  Reachable Scenarios.one_open /\
  exec 1 (OQueryName "peer" "ping") Scenarios.one_open =
    Ret (RStr "uuid-1" None)
        (state_after 1 [OQueryName "peer" "ping"] Scenarios.one_open) /\
  listeners (api (state_after 1 [OQueryName "peer" "ping"] Scenarios.one_open)) =
    listeners (api Scenarios.one_open) /\
  closed (api (state_after 1 [OQueryName "peer" "ping"] Scenarios.one_open)) =
    closed (api Scenarios.one_open).
Proof.
  assert (Hexec : exec 1 (OQueryName "peer" "ping") Scenarios.one_open =
                  Ret (RStr "uuid-1" None)
                      (state_after 1 [OQueryName "peer" "ping"] Scenarios.one_open)).
  { rewrite exec_returns by (vm_compute; reflexivity). f_equal. }
  destruct (registries_change_only_through_their_setters 1 _ _ _ _
              one_open_Reachable Hexec) as (Hls & _ & Hcl).
  split; [exact one_open_Reachable|]. split; [exact Hexec|].
  split; [exact (Hls eq_refl) | apply Hcl; discriminate].
Defined.

(** X22, replayed: the stream fails to close, then closes. *)
Lemma ConnClose_can_be_retried_witness :
  Reachable Scripted.conn_close_fails /\
  live_connection (api Scripted.conn_close_fails) "uuid-0" = Some 7%positive /\
  exists st',
    (first <- ConnClose "uuid-0" ;; second <- ConnClose "uuid-0" ;;
     ret (first, second)) Scripted.conn_close_fails =
      Ret (Some (UnderlyingFailure "boom"), None) st' /\
    calls st' =
      calls Scripted.conn_close_fails ++ [CConnClose 7%positive; CConnClose 7%positive] /\
    live_connection (api st') "uuid-0" = None.
Proof.
  split; [exact conn_close_fails_Reachable|]. split; [reflexivity|].
  exact (ConnClose_can_be_retried Scripted.conn_close_fails "uuid-0" 7%positive "boom"
           [Scripted.Succeeds] conn_close_fails_Reachable eq_refl eq_refl).
Defined.

(** X23, replayed: two accepts on "echo". *)
Lemma two_accepts_make_two_entries_witness :
  Reachable Scenarios.accepting_two /\
  live_listener (api Scenarios.accepting_two) "echo" = Some 3%positive /\
  exists id1 id2 st',
    (first <- ConnAccept "echo" ;; second <- ConnAccept "echo" ;;
     ret (first, second)) Scenarios.accepting_two =
      Ret ((id1, None), (id2, None)) st' /\
    id1 <> id2 /\
    live_connection (api st') id1 = Some 7%positive /\
    live_connection (api st') id2 = Some 8%positive.
Proof.
  split; [exact accepting_two_Reachable|]. split; [reflexivity|].
  exact (two_accepts_make_two_entries Scenarios.accepting_two "echo" 3%positive
           7%positive [Scripted.GivesConn 8%positive] 8%positive []
           accepting_two_Reachable eq_refl eq_refl eq_refl).
Defined.

(** X11, replayed: a name is resolved and the node behind it described; the
    empty identity is no key for [NodeInfo]. *)
Example stack_lookups_replayed :
  returned
    ((resolved <- Resolve "peer" ;; info <- api_NodeInfo Scenarios.key ;;
      nobody <- api_NodeInfo "" ;; ret (resolved, info, nobody))
       (@initial Scripted.env [Scripted.GivesIdentity Scenarios.key;
                               Scripted.GivesInfo Scenarios.key "node"] 0))
  = Some ((Scenarios.key, None),
          ({| NodeInfo_Identity := Scenarios.key; NodeInfo_Name := "node" |}, None),
          ({| NodeInfo_Identity := ""; NodeInfo_Name := "" |},
           Some (MalformedInput "invalid public key"))).
Proof. vm_compute. reflexivity. Qed.
